(** * Gravi Agent: the task-queue scheduler (src/features/scheduler.js)

    A shallow embedding of the [Scheduler] class.  The object's fields are a
    record; everything the class reaches outside itself is part of a [World]:
    the JS arrays (a store, because [startQueue] copies its argument and
    [getStatus] hands out a reference), the wall clock read by [Date.now()],
    the timers created with [setInterval] / [setTimeout], the [sendPrompt]
    calls whose promise has not settled yet, and the notifications shown.

    An [async] method runs synchronously up to its first [await]; what follows
    the [await] is a separate callback that runs when the promise settles.
    Callbacks never overlap (single-threaded event loop), so every callback is
    a function [World -> World] and a run is a list of events.  Time passes
    between callbacks, and between the two reads of [Date.now()] whose values
    [_executeCurrentItem] stores one after the other: [readGap] is what the
    clock gains there.  The periods handed to [setInterval] are IEEE 754
    doubles, computed as JavaScript computes them. *)

From stdpp Require Import gmap list strings.
From Stdlib Require Import ZArith QArith PrimFloat.

Close Scope Q_scope.

(** A decimal literal in [float_scope] is the nearest double, as in
    JavaScript. *)
Set Warnings "-inexact-float".

(** ** Data *)

(** [this.config], as built by [loadConfig].  [prompts] is a reference to the
    array the settings store returned. *)
Record Config := mkConfig {
  enabled : bool;
  mode : string;
  prompts : nat;
  silenceTimeout : Q;
  intervalMinutes : float;
  intervalPrompt : string
}.

(** The fields of a [Scheduler] instance ([context], [cdpHandler] and [log]
    are collaborators, not state).  [null] is [None]. *)
Record Scheduler := mkScheduler {
  isRunning : bool;
  isPaused : bool;
  queueIndex : nat;
  runtimeQueue : nat;
  lastActivityTime : option Z;
  currentItemSentAt : option Z;
  checkTimer : option nat;
  intervalTimer : option nat;
  config : Config
}.

(** What a [setInterval] timer runs. *)
Inductive Callback :=
| CheckSilenceCb
| IntervalSendCb (prompt : string).

Record Interval := mkInterval { period : float; callback : Callback }.

(** A [setTimeout(() => this._executeCurrentItem(retryCount + 1), 3000)]. *)
Record Timeout := mkTimeout { delay : Z; setAt : Z; retryCount : nat }.

(** A [sendPrompt(prompt)] of [_executeCurrentItem(retryCount)] that is still
    awaited. *)
Record Pending := mkPending { pendingPrompt : string; pendingRetry : nat }.

(** [vscode.window.showWarningMessage] / [showInformationMessage]. *)
Inductive Notification :=
| EmptyQueueWarning
| CompletionInfo (n : nat).

(** [cdpHandler.getStats()]: a missing field is [undefined]. *)
Record Stats := mkStats { lastActivity : option Z; lastDomChange : option Z }.

(** The scheduler and what it reaches.  [now] is what [Date.now()] returns
    when the next callback starts, [readGap] what the clock gains between the
    two consecutive reads of [_executeCurrentItem]. *)
Record World := mkWorld {
  sched : Scheduler;
  heap : gmap nat (list string);
  now : Z;
  intervals : gmap nat Interval;
  timeouts : list Timeout;
  inflight : list Pending;
  sent : list string;
  notes : list Notification;
  nextTimerId : nat;
  readGap : N
}.

(** The projection returned by [getStatus]. *)
Record Status := mkStatus {
  st_isRunning : bool;
  st_isPaused : bool;
  st_mode : string;
  st_queueIndex : nat;
  st_queueLength : nat;
  st_prompts : nat;
  st_currentPrompt : option string
}.

(** ** Field updates *)

Definition set_isRunning (b : bool) (s : Scheduler) : Scheduler :=
  mkScheduler b (isPaused s) (queueIndex s) (runtimeQueue s) (lastActivityTime s)
    (currentItemSentAt s) (checkTimer s) (intervalTimer s) (config s).

Definition set_isPaused (b : bool) (s : Scheduler) : Scheduler :=
  mkScheduler (isRunning s) b (queueIndex s) (runtimeQueue s) (lastActivityTime s)
    (currentItemSentAt s) (checkTimer s) (intervalTimer s) (config s).

Definition set_queueIndex (i : nat) (s : Scheduler) : Scheduler :=
  mkScheduler (isRunning s) (isPaused s) i (runtimeQueue s) (lastActivityTime s)
    (currentItemSentAt s) (checkTimer s) (intervalTimer s) (config s).

Definition set_runtimeQueue (l : nat) (s : Scheduler) : Scheduler :=
  mkScheduler (isRunning s) (isPaused s) (queueIndex s) l (lastActivityTime s)
    (currentItemSentAt s) (checkTimer s) (intervalTimer s) (config s).

Definition set_lastActivityTime (t : option Z) (s : Scheduler) : Scheduler :=
  mkScheduler (isRunning s) (isPaused s) (queueIndex s) (runtimeQueue s) t
    (currentItemSentAt s) (checkTimer s) (intervalTimer s) (config s).

Definition set_currentItemSentAt (t : option Z) (s : Scheduler) : Scheduler :=
  mkScheduler (isRunning s) (isPaused s) (queueIndex s) (runtimeQueue s)
    (lastActivityTime s) t (checkTimer s) (intervalTimer s) (config s).

Definition set_checkTimer (h : option nat) (s : Scheduler) : Scheduler :=
  mkScheduler (isRunning s) (isPaused s) (queueIndex s) (runtimeQueue s)
    (lastActivityTime s) (currentItemSentAt s) h (intervalTimer s) (config s).

Definition set_intervalTimer (h : option nat) (s : Scheduler) : Scheduler :=
  mkScheduler (isRunning s) (isPaused s) (queueIndex s) (runtimeQueue s)
    (lastActivityTime s) (currentItemSentAt s) (checkTimer s) h (config s).

Definition set_config (c : Config) (s : Scheduler) : Scheduler :=
  mkScheduler (isRunning s) (isPaused s) (queueIndex s) (runtimeQueue s)
    (lastActivityTime s) (currentItemSentAt s) (checkTimer s) (intervalTimer s) c.

Definition upd (f : Scheduler -> Scheduler) (w : World) : World :=
  mkWorld (f (sched w)) (heap w) (now w) (intervals w) (timeouts w) (inflight w)
    (sent w) (notes w) (nextTimerId w) (readGap w).

Definition set_heap (h : gmap nat (list string)) (w : World) : World :=
  mkWorld (sched w) h (now w) (intervals w) (timeouts w) (inflight w) (sent w) (notes w)
    (nextTimerId w) (readGap w).

Definition set_now (t : Z) (w : World) : World :=
  mkWorld (sched w) (heap w) t (intervals w) (timeouts w) (inflight w) (sent w) (notes w)
    (nextTimerId w) (readGap w).

Definition set_intervals (m : gmap nat Interval) (w : World) : World :=
  mkWorld (sched w) (heap w) (now w) m (timeouts w) (inflight w) (sent w) (notes w)
    (nextTimerId w) (readGap w).

Definition set_timeouts (l : list Timeout) (w : World) : World :=
  mkWorld (sched w) (heap w) (now w) (intervals w) l (inflight w) (sent w) (notes w)
    (nextTimerId w) (readGap w).

Definition set_inflight (l : list Pending) (w : World) : World :=
  mkWorld (sched w) (heap w) (now w) (intervals w) (timeouts w) l (sent w) (notes w)
    (nextTimerId w) (readGap w).

Definition set_sent (l : list string) (w : World) : World :=
  mkWorld (sched w) (heap w) (now w) (intervals w) (timeouts w) (inflight w) l (notes w)
    (nextTimerId w) (readGap w).

Definition notify (n : Notification) (w : World) : World :=
  mkWorld (sched w) (heap w) (now w) (intervals w) (timeouts w) (inflight w) (sent w)
    (notes w ++ [n]) (nextTimerId w) (readGap w).

Definition set_readGap (d : N) (w : World) : World :=
  mkWorld (sched w) (heap w) (now w) (intervals w) (timeouts w) (inflight w) (sent w)
    (notes w) (nextTimerId w) d.

(** ** JavaScript coercions the class relies on *)

(** [null] used as a number ([x > null], [Date.now() - null]) is 0. *)
Definition toNumber (o : option Z) : Z := default 0%Z o.

(** [x || 0] on a number-or-undefined. *)
Definition orZero (o : option Z) : Z := default 0%Z o.

(** [a < b] and [a >= b] on numbers. *)
Definition Qltb (a b : Q) : bool := negb (Qle_bool b a).
Definition Qgeb (a b : Q) : bool := Qle_bool b a.

(** The contents of [this.runtimeQueue]. *)
Definition queue (w : World) : list string :=
  default [] (heap w !! runtimeQueue (sched w)).

(** ** The methods *)

Definition MAX_RETRIES : nat := 3.

(** [loadConfig]: [c] is what the settings store holds at the call. *)
Definition loadConfig (c : Config) (w : World) : World := upd (set_config c) w.

(** [setInterval(cb, ms)] returns a handle no earlier call returned;
    [clearInterval(h)] stops the timer behind [h], if it is still active. *)
Definition setInterval (cb : Callback) (ms : float) (w : World) : nat * World :=
  (nextTimerId w,
   mkWorld (sched w) (heap w) (now w)
     (<[nextTimerId w := mkInterval ms cb]> (intervals w))
     (timeouts w) (inflight w) (sent w) (notes w) (S (nextTimerId w)) (readGap w)).

Definition clearInterval (h : nat) (w : World) : World :=
  set_intervals (delete h (intervals w)) w.

Definition _stopCheckTimer (w : World) : World :=
  match checkTimer (sched w) with
  | Some h => upd (set_checkTimer None) (clearInterval h w)
  | None => w
  end.

Definition _startCheckTimer (w : World) : World :=
  let w1 := _stopCheckTimer w in
  let '(h, w2) := setInterval CheckSilenceCb 5000%float w1 in
  upd (set_checkTimer (Some h)) w2.

Definition _onQueueComplete (w : World) : World :=
  let w1 := _stopCheckTimer (upd (set_isRunning false) w) in
  notify (CompletionInfo (length (queue w1))) w1.

(** [_executeCurrentItem(retryCount)] up to its [await]: the guards, the two
    time stamps and the call of [sendPrompt].  [Date.now()] is read once for
    each stamp, and the clock has gained [readGap] in between. *)
Definition _executeCurrentItem (retry : nat) (w : World) : World :=
  if negb (isRunning (sched w)) || isPaused (sched w) then w
  else if length (queue w) <=? queueIndex (sched w) then _onQueueComplete w
  else
    match queue w !! queueIndex (sched w) with
    | None => w
    | Some prompt =>
        let w1 := upd (set_currentItemSentAt (Some (now w))) w in
        let w2 := set_now (now w1 + Z.of_N (readGap w1)) w1 in
        let w3 := upd (set_lastActivityTime (Some (now w2))) w2 in
        set_inflight (inflight w3 ++ [mkPending prompt retry])
          (set_sent (sent w3 ++ [prompt]) w3)
    end.

Definition _advanceQueue (w : World) : World :=
  let w1 := upd (set_queueIndex (S (queueIndex (sched w)))) w in
  if length (queue w1) <=? queueIndex (sched w1) then _onQueueComplete w1
  else _executeCurrentItem 0 w1.

(** [_executeCurrentItem(retryCount)] after its [await]: [success] is
    [result.success]. *)
Definition _executeCurrentItem_settled (retry : nat) (success : bool)
    (w : World) : World :=
  if negb success then
    if retry <? MAX_RETRIES - 1 then
      set_timeouts (timeouts w ++ [mkTimeout 3000 (now w) (retry + 1)]) w
    else _advanceQueue w
  else w.

(** [startQueue(prompts)]: [None] is a call without argument.  An array is
    truthy even when empty, so [prompts || this.config.prompts] falls back to
    the configured list only when no array is passed. *)
Definition resolveItems (arg : option nat) (w : World) : list string :=
  let items := match arg with Some l => l | None => prompts (config (sched w)) end in
  default [] (heap w !! items).

Definition startQueue (arg : option nat) (w : World) : World :=
  let contents := resolveItems arg w in
  if length contents =? 0 then notify EmptyQueueWarning w
  else
    let l := fresh (dom (heap w)) in
    let w1 := upd (set_runtimeQueue l) (set_heap (<[l := contents]> (heap w)) w) in
    let w2 := upd (set_queueIndex 0) w1 in
    let w3 := upd (set_isRunning true) w2 in
    let w4 := upd (set_isPaused false) w3 in
    _startCheckTimer (_executeCurrentItem 0 w4).

Definition stopQueue (w : World) : World :=
  _stopCheckTimer (upd (set_isPaused false) (upd (set_isRunning false) w)).

Definition pauseQueue (w : World) : World :=
  if negb (isRunning (sched w)) then w else upd (set_isPaused true) w.

Definition resumeQueue (w : World) : World :=
  if negb (isRunning (sched w)) || negb (isPaused (sched w)) then w
  else _executeCurrentItem 0 (upd (set_isPaused false) w).

Definition skipPrompt (w : World) : World :=
  if negb (isRunning (sched w)) then w else _advanceQueue w.

Definition _checkSilence (stats : Stats) (w : World) : World :=
  if negb (isRunning (sched w)) || isPaused (sched w) then w
  else
    match currentItemSentAt (sched w) with
    | None => w
    | Some sentAt =>
        if (sentAt =? 0)%Z then w
        else
          let elapsed := ((now w - sentAt) # 1000)%Q in
          if Qltb elapsed (10 # 1) then w
          else
            let latestActivity :=
              Z.max (orZero (lastActivity stats)) (orZero (lastDomChange stats)) in
            let w1 :=
              if negb (latestActivity =? 0)%Z
                 && (toNumber (lastActivityTime (sched w)) <? latestActivity)%Z
              then upd (set_lastActivityTime (Some latestActivity)) w
              else w in
            let silenceSec :=
              ((now w1 - toNumber (lastActivityTime (sched w1))) # 1000)%Q in
            if Qgeb silenceSec (silenceTimeout (config (sched w1))) then _advanceQueue w1
            else w1
    end.

Definition stopInterval (w : World) : World :=
  match intervalTimer (sched w) with
  | Some h => upd (set_intervalTimer None) (clearInterval h w)
  | None => w
  end.

Definition startInterval (w : World) : World :=
  let w1 := stopInterval w in
  let ms := (intervalMinutes (config (sched w1)) * 60 * 1000)%float in
  let prompt := intervalPrompt (config (sched w1)) in
  if String.eqb prompt ""%string then w1
  else
    let '(h, w2) := setInterval (IntervalSendCb prompt) ms w1 in
    upd (set_intervalTimer (Some h)) w2.

Definition stop (w : World) : World := stopInterval (stopQueue w).

(** [x || null] on a string-or-undefined: the empty string is falsy. *)
Definition orNull (o : option string) : option string :=
  match o with
  | Some s => if String.eqb s ""%string then None else Some s
  | None => None
  end.

Definition getStatus (w : World) : Status :=
  mkStatus (isRunning (sched w)) (isPaused (sched w)) (mode (config (sched w)))
    (queueIndex (sched w)) (length (queue w)) (runtimeQueue (sched w))
    (orNull (queue w !! queueIndex (sched w))).

(** [new Scheduler(...)]: the constructor allocates the empty [runtimeQueue]
    and loads the configuration. *)
Definition new_Scheduler (c : Config) (h : gmap nat (list string)) (t : Z) : World :=
  let l := fresh (dom h) in
  loadConfig c
    (mkWorld (mkScheduler false false 0 l None None None None c)
       (<[l := []]> h) t ∅ [] [] [] [] 0 0).

(** ** The event loop *)

Inductive Event :=
| StartQueue (arg : option nat)
| StopQueue
| PauseQueue
| ResumeQueue
| SkipPrompt
| StartInterval
| StopInterval
| Stop
| LoadConfig (c : Config)
| IntervalFire (h : nat) (stats : Stats)
| TimeoutFire (i : nat)
| SendSettled (i : nat) (success : bool)
| Elapse (d : Z)
| CallerAlloc (items : list string)
| CallerWrite (l : nat) (items : list string)
| ReadGap (d : N).

(** One event.  [None] when the event cannot happen in [w]: a timer that is
    not active or not due, a promise that is not pending, a clock running
    backwards, a reference the caller does not hold.  [ReadGap d] is the
    environment settling what the clock will gain between the two stamps of
    the next [_executeCurrentItem]. *)
Definition fire (e : Event) (w : World) : option World :=
  match e with
  | StartQueue arg =>
      match arg with
      | Some l => if decide (is_Some (heap w !! l)) then Some (startQueue arg w) else None
      | None => Some (startQueue arg w)
      end
  | StopQueue => Some (stopQueue w)
  | PauseQueue => Some (pauseQueue w)
  | ResumeQueue => Some (resumeQueue w)
  | SkipPrompt => Some (skipPrompt w)
  | StartInterval => Some (startInterval w)
  | StopInterval => Some (stopInterval w)
  | Stop => Some (stop w)
  | LoadConfig c =>
      if decide (is_Some (heap w !! prompts c) ∧ prompts c ≠ runtimeQueue (sched w))
      then Some (loadConfig c w) else None
  | IntervalFire h stats =>
      match intervals w !! h with
      | Some (mkInterval _ CheckSilenceCb) => Some (_checkSilence stats w)
      | Some (mkInterval _ (IntervalSendCb p)) => Some (set_sent (sent w ++ [p]) w)
      | None => None
      end
  | TimeoutFire i =>
      match timeouts w !! i with
      | Some t =>
          if (setAt t + delay t <=? now w)%Z
          then Some (_executeCurrentItem (retryCount t)
                       (set_timeouts (delete i (timeouts w)) w))
          else None
      | None => None
      end
  | SendSettled i success =>
      match inflight w !! i with
      | Some p =>
          Some (_executeCurrentItem_settled (pendingRetry p) success
                  (set_inflight (delete i (inflight w)) w))
      | None => None
      end
  | Elapse d => if (0 <=? d)%Z then Some (set_now (now w + d)%Z w) else None
  | CallerAlloc items => Some (set_heap (<[fresh (dom (heap w)) := items]> (heap w)) w)
  | CallerWrite l items =>
      if decide (is_Some (heap w !! l) ∧ l ≠ runtimeQueue (sched w))
      then Some (set_heap (<[l := items]> (heap w)) w) else None
  | ReadGap d => Some (set_readGap d w)
  end.

Fixpoint run (es : list Event) (w : World) : option World :=
  match es with
  | [] => Some w
  | e :: es' =>
      match fire e w with
      | Some w' => run es' w'
      | None => None
      end
  end.

(** The states the scheduler can be in: those some run reaches from a freshly
    constructed scheduler. *)
Definition reachable (w : World) : Prop :=
  ∃ c h t es, run es (new_Scheduler c h t) = Some w.

(** The watermark as the silence check reads it. *)
Definition watermark (w : World) : Z := toNumber (lastActivityTime (sched w)).

(** A silence-check tick [d] milliseconds after the previous callback, with a
    sample that reports no activity at all. *)
Definition zeroStats : Stats := mkStats (Some 0%Z) (Some 0%Z).

Definition silentTick (d : Z) (w : World) : World :=
  _checkSilence zeroStats (set_now (now w + d)%Z w).

Definition silentTicks (ds : list Z) (w : World) : World :=
  foldl (fun acc d => silentTick d acc) w ds.

Definition sumZ (ds : list Z) : Z := foldr Z.add 0%Z ds.

(** The silence-check timers that are active. *)
Definition isCheckTimer (w : World) (h : nat) : Prop :=
  ∃ iv, intervals w !! h = Some iv ∧ callback iv = CheckSilenceCb.

(** The timer table is consistent: handles come from the counter, and a
    silence-check timer that is active is the one [checkTimer] refers to. *)
Definition TimerInv (w : World) : Prop :=
  (∀ h iv, intervals w !! h = Some iv → h < nextTimerId w)
  ∧ (∀ h, checkTimer (sched w) = Some h → h < nextTimerId w)
  ∧ (∀ h, isCheckTimer w h → checkTimer (sched w) = Some h).


(** The index stays within the queue, and strictly so while running. *)
Definition QueueInv (w : World) : Prop :=
  is_Some (heap w !! runtimeQueue (sched w))
  ∧ queueIndex (sched w) ≤ length (queue w)
  ∧ (isRunning (sched w) = true → queueIndex (sched w) < length (queue w)).

(** The one event whose handler does not find the queue as it left it: the
    last attempt of an item failing after the queue has stopped. *)
Definition staleFailure (e : Event) (w : World) : Prop :=
  ∃ i p, e = SendSettled i false ∧ inflight w !! i = Some p
         ∧ MAX_RETRIES - 1 ≤ pendingRetry p ∧ isRunning (sched w) = false.

Fixpoint noStaleFailure (es : list Event) (w : World) : Prop :=
  match es with
  | [] => True
  | e :: es' =>
      ¬ staleFailure e w
      ∧ match fire e w with
        | Some w' => noStaleFailure es' w'
        | None => True
        end
  end.




(** ** A concrete session

    Settings with an empty prompt list (the defaults of [loadConfig]), a clock
    that reads 1000 when the extension activates. *)
Module Session.

Definition settings : Config :=
  mkConfig false "queue" 0 (30 # 1) 30%float "".

Definition store : gmap nat (list string) := {[ 0 := [] ]}.

Definition start : World := new_Scheduler settings store 1000.

(** The caller builds the array at reference 2 (0 is the settings' list, 1
    the constructor's [runtimeQueue]) and starts the queue with it. *)
Definition begin (items : list string) : list Event :=
  [CallerAlloc items; StartQueue (Some 2)].

(** A send fails, and its retry fires three seconds later. *)
Definition failAndRetry : list Event :=
  [SendSettled 0 false; Elapse 3000; TimeoutFire 0].

Definition noStats : Stats := mkStats None None.

(** The queue ["A"; "B"] has just been started: "A" was sent at 1000 and
    its send is pending. *)
Definition running : World :=
  default start (run (begin ["A"%string; "B"%string]) start).

(** Twelve seconds later activity stamped 9000 has been seen. *)
Definition active : World :=
  upd (set_lastActivityTime (Some 9000%Z)) (set_now 13000%Z running).

(** Settings that differ from [settings] in every field a reload can
    change. *)
Definition edited : Config :=
  mkConfig true "interval" 0 (5 # 1) 1%float "ping".

End Session.

(** ** The two repeating timers together *)

(** The timer table once [_stopCheckTimer] has run. *)
Definition clearedIntervals (w : World) : gmap nat Interval :=
  match checkTimer (sched w) with
  | Some h => delete h (intervals w)
  | None => intervals w
  end.

(** Handles and table agree: [checkTimer] refers to an active 5-second
    silence check, [intervalTimer] to an active interval send, and nothing
    else is active. *)
Definition TimerTable (w : World) : Prop :=
  (∀ h iv, intervals w !! h = Some iv → h < nextTimerId w)
  ∧ (∀ h, checkTimer (sched w) = Some h →
          intervals w !! h = Some (mkInterval 5000%float CheckSilenceCb))
  ∧ (∀ h, intervalTimer (sched w) = Some h →
          ∃ ms p, intervals w !! h = Some (mkInterval ms (IntervalSendCb p))
                  ∧ p ≠ ""%string)
  ∧ (∀ h iv, intervals w !! h = Some iv →
             checkTimer (sched w) = Some h ∨ intervalTimer (sched w) = Some h)
  ∧ (isRunning (sched w) = true ↔ is_Some (checkTimer (sched w))).

(** What a queue callback may do to the timers: nothing, or end the run. *)
Definition QueueStep (w w' : World) : Prop :=
  nextTimerId w' = nextTimerId w
  ∧ intervalTimer (sched w') = intervalTimer (sched w)
  ∧ ((intervals w' = intervals w
      ∧ checkTimer (sched w') = checkTimer (sched w)
      ∧ isRunning (sched w') = isRunning (sched w))
     ∨ (intervals w' = clearedIntervals w
        ∧ checkTimer (sched w') = None
        ∧ isRunning (sched w') = false)).

(** The events that are calls of the interval repeater's own methods. *)
Definition isIntervalCommand (e : Event) : bool :=
  match e with
  | StartInterval | StopInterval | Stop => true
  | _ => false
  end.

(** The active timers that send the interval prompt. *)
Definition isIntervalSendTimer (w : World) (h : nat) : Prop :=
  ∃ ms p, intervals w !! h = Some (mkInterval ms (IntervalSendCb p)).

(** Everything the queue executor owns or produces. *)
Definition queueSide (w : World) :=
  (isRunning (sched w), isPaused (sched w), queueIndex (sched w),
   runtimeQueue (sched w), lastActivityTime (sched w),
   currentItemSentAt (sched w), checkTimer (sched w), heap w, timeouts w,
   inflight w, sent w, notes w).

(** * The relauncher (src/core/relauncher.js)

    A JS string is the list of its UTF-16 code units; the regular expression
    of [_sanitizePath] has no [u] flag and works on code units. *)
Module Relauncher.

(** The code units of an ASCII literal. *)
Definition units (s : string) : list Z :=
  (λ a, Z.of_nat (Ascii.nat_of_ascii a)) <$> String.list_ascii_of_string s.

Definition between (lo hi c : Z) : bool := (lo <=? c)%Z && (c <=? hi)%Z.

(** The class escape [\s]: the white space and line terminator code points
    of ECMAScript (tab to carriage return, space, U+00A0, U+1680, U+2000 to
    U+200A, U+2028, U+2029, U+202F, U+205F, U+3000, U+FEFF). *)
Definition isSpace (c : Z) : bool :=
  between 9 13 c || (c =? 32)%Z || (c =? 160)%Z || (c =? 5760)%Z
  || between 8192 8202 c || (c =? 8232)%Z || (c =? 8233)%Z || (c =? 8239)%Z
  || (c =? 8287)%Z || (c =? 12288)%Z || (c =? 65279)%Z.

(** The complement of the class the regular expression removes:
    [a-zA-Z0-9\s\u3000-\u9FFF\uF900-\uFAFF:\\\/.\-_]. *)
Definition allowed (c : Z) : bool :=
  between 97 122 c || between 65 90 c || between 48 57 c || isSpace c
  || between 12288 40959 c || between 63744 64255 c
  || (c =? 58)%Z || (c =? 92)%Z || (c =? 47)%Z || (c =? 46)%Z || (c =? 45)%Z
  || (c =? 95)%Z.

(** [p.replace(/[^...]/g, '')]. *)
Definition _sanitizePath (p : list Z) : list Z :=
  filter (λ c, allowed c = true) p.

(** [String.prototype.includes]: [pat] occurs somewhere in [s]. *)
Fixpoint startsWith (s pat : list Z) : bool :=
  match pat, s with
  | [], _ => true
  | _ :: _, [] => false
  | c :: pat', d :: s' => (c =? d)%Z && startsWith s' pat'
  end.

Fixpoint includes (s pat : list Z) : bool :=
  startsWith s pat
  || match s with
     | [] => false
     | _ :: s' => includes s' pat
     end.

(** [Array.prototype.join]. *)
Fixpoint join (sep : list Z) (l : list (list Z)) : list Z :=
  match l with
  | [] => []
  | [x] => x
  | x :: rest => x ++ sep ++ join sep rest
  end.

(** The decimal digits of a non-negative integer, as a template literal
    prints a number. *)
Fixpoint digits (d : Decimal.uint) : list Z :=
  match d with
  | Decimal.Nil => []
  | Decimal.D0 d => 48%Z :: digits d
  | Decimal.D1 d => 49%Z :: digits d
  | Decimal.D2 d => 50%Z :: digits d
  | Decimal.D3 d => 51%Z :: digits d
  | Decimal.D4 d => 52%Z :: digits d
  | Decimal.D5 d => 53%Z :: digits d
  | Decimal.D6 d => 54%Z :: digits d
  | Decimal.D7 d => 55%Z :: digits d
  | Decimal.D8 d => 56%Z :: digits d
  | Decimal.D9 d => 57%Z :: digits d
  end.

(** [this.cdpFlag], as the constructor builds it from the port. *)
Definition cdpFlag (port : N) : list Z :=
  units "--remote-debugging-port=" ++ digits (N.to_uint port).

(** [hasFlag()]: [argv] is [process.argv]. *)
Definition hasFlag (argv : list (list Z)) (port : N) : bool :=
  includes (join [32%Z] argv) (cdpFlag port).

(** The argument list [_relaunch] builds: the flag, then every workspace
    folder whose sanitized path is not empty. *)
Definition relaunchArgs (port : N) (folders : list (list Z)) : list (list Z) :=
  foldl (λ args f,
           let sanitized := _sanitizePath f in
           match sanitized with
           | [] => args
           | _ :: _ => args ++ [sanitized]
           end)
        [cdpFlag port] folders.

(** The batch file [_relaunch] writes on Windows. *)
Definition batContent (port : N) (exePath : list Z) (folders : list (list Z))
    : list Z :=
  units "@echo off" ++ [10%Z] ++ units "timeout /t 2 /nobreak >nul" ++ [10%Z]
  ++ [34%Z] ++ _sanitizePath exePath ++ [34%Z] ++ [32%Z]
  ++ join [32%Z] (relaunchArgs port folders) ++ [10%Z].

(** What [_relaunch] does at once and what it schedules. *)
Inductive Action :=
| WriteFile (path content : list Z)
| SpawnDetached (exe : list Z) (args : list (list Z))
| QuitCommand.

Record Relaunch := mkRelaunch {
  atOnce : list Action;
  later : list (Z * Action)
}.

(** [_relaunch()]: [win32] is [os.platform() === 'win32'], [exePath] is
    [process.execPath], [folders] the [fsPath] of the workspace folders and
    [batFile] the temporary file name [path.join] returns. *)
Definition _relaunch (win32 : bool) (port : N) (exePath : list Z)
    (folders : list (list Z)) (batFile : list Z) : Relaunch :=
  let args := relaunchArgs port folders in
  if win32 then
    mkRelaunch
      [WriteFile batFile (batContent port exePath folders);
       SpawnDetached (units "cmd.exe") [units "/c"; batFile]]
      [(500%Z, QuitCommand)]
  else
    mkRelaunch [] [(2000%Z, SpawnDetached exePath args); (500%Z, QuitCommand)].

(** The number of line feeds in a string. *)
Definition lineFeeds (s : list Z) : nat := length (filter (λ c, c = 10%Z) s).

(** Characters with a meaning to [cmd.exe], PowerShell or a POSIX shell. *)
Definition shellMeta : list Z :=
  [34; 39; 96; 36; 38; 124; 59; 60; 62; 40; 41; 37; 94; 33; 42; 63; 123; 125;
   91; 93; 126; 35; 61; 43; 44; 64]%Z.

End Relauncher.

(** * The extension entry point (extension.js)

    The module-level variables of the entry point, the scheduler it owns, and
    what it does to its collaborators: the calls of the CDP handler, the
    relaunch proposals and the warnings.  [toggle] and the start-up check of
    [activate] are [async]; each [await] ends a callback and leaves a pending
    continuation. *)
Module Extension.

(** Calls of [cdpHandler.start], [.poll] and [.stop]. *)
Inductive CdpCall := CdpStart | CdpPoll | CdpStop.

(** Continuations waiting for a promise: the availability check of [toggle]
    and of [activate] (which has read [shouldStart] before), and the
    [ensureCDPAndRelaunch] either of them awaits. *)
Inductive Pending :=
| ToggleAvailable
| ToggleRelaunch
| ActivateAvailable (shouldStart : bool)
| ActivateRelaunch.

Record Ext := mkExt {
  enabled : bool;
  relaunchAttempted : bool;
  pollTimer : option nat;
  scheduler : World;
  (* the host *)
  savedEnabled : option bool;
  statusOn : bool;
  pollInterval : Z;
  cdpPort : N;
  polls : gmap nat Z;
  nextPoll : nat;
  cdpCalls : list CdpCall;
  relaunches : list N;
  warnings : nat;
  pending : list Pending
}.

Definition set_enabled (b : bool) (x : Ext) : Ext :=
  mkExt b (relaunchAttempted x) (pollTimer x) (scheduler x) (savedEnabled x)
    (statusOn x) (pollInterval x) (cdpPort x) (polls x) (nextPoll x) (cdpCalls x)
    (relaunches x) (warnings x) (pending x).

Definition set_scheduler (w : World) (x : Ext) : Ext :=
  mkExt (enabled x) (relaunchAttempted x) (pollTimer x) w (savedEnabled x)
    (statusOn x) (pollInterval x) (cdpPort x) (polls x) (nextPoll x) (cdpCalls x)
    (relaunches x) (warnings x) (pending x).

Definition set_pending (l : list Pending) (x : Ext) : Ext :=
  mkExt (enabled x) (relaunchAttempted x) (pollTimer x) (scheduler x)
    (savedEnabled x) (statusOn x) (pollInterval x) (cdpPort x) (polls x)
    (nextPoll x) (cdpCalls x) (relaunches x) (warnings x) l.

Definition set_settings (interval : Z) (x : Ext) : Ext :=
  mkExt (enabled x) (relaunchAttempted x) (pollTimer x) (scheduler x)
    (savedEnabled x) (statusOn x) interval (cdpPort x) (polls x) (nextPoll x)
    (cdpCalls x) (relaunches x) (warnings x) (pending x).

Definition call (c : CdpCall) (x : Ext) : Ext :=
  mkExt (enabled x) (relaunchAttempted x) (pollTimer x) (scheduler x)
    (savedEnabled x) (statusOn x) (pollInterval x) (cdpPort x) (polls x)
    (nextPoll x) (cdpCalls x ++ [c]) (relaunches x) (warnings x) (pending x).

(** [extensionContext.workspaceState.update('gravi-agent.enabled', b)]. *)
Definition persist (b : bool) (x : Ext) : Ext :=
  mkExt (enabled x) (relaunchAttempted x) (pollTimer x) (scheduler x) (Some b)
    (statusOn x) (pollInterval x) (cdpPort x) (polls x) (nextPoll x) (cdpCalls x)
    (relaunches x) (warnings x) (pending x).

Definition warn (x : Ext) : Ext :=
  mkExt (enabled x) (relaunchAttempted x) (pollTimer x) (scheduler x)
    (savedEnabled x) (statusOn x) (pollInterval x) (cdpPort x) (polls x)
    (nextPoll x) (cdpCalls x) (relaunches x) (S (warnings x)) (pending x).

(** [relaunchAttempted = true; new Relauncher(log, port)], followed by the
    awaited [ensureCDPAndRelaunch()]. *)
Definition proposeRelaunch (port : N) (k : Pending) (x : Ext) : Ext :=
  mkExt (enabled x) true (pollTimer x) (scheduler x) (savedEnabled x)
    (statusOn x) (pollInterval x) (cdpPort x) (polls x) (nextPoll x) (cdpCalls x)
    (relaunches x ++ [port]) (warnings x) (pending x ++ [k]).

Definition updateStatusBar (x : Ext) : Ext :=
  mkExt (enabled x) (relaunchAttempted x) (pollTimer x) (scheduler x)
    (savedEnabled x) (enabled x) (pollInterval x) (cdpPort x) (polls x)
    (nextPoll x) (cdpCalls x) (relaunches x) (warnings x) (pending x).

Definition startPolling (x : Ext) : Ext :=
  match pollTimer x with
  | Some _ => x
  | None =>
      let x1 := call CdpStart x in
      mkExt (enabled x1) (relaunchAttempted x1) (Some (nextPoll x1)) (scheduler x1)
        (savedEnabled x1) (statusOn x1) (pollInterval x1) (cdpPort x1)
        (<[nextPoll x1 := pollInterval x1]> (polls x1)) (S (nextPoll x1))
        (cdpCalls x1) (relaunches x1) (warnings x1) (pending x1)
  end.

Definition stopPolling (x : Ext) : Ext :=
  let x1 :=
    match pollTimer x with
    | Some h =>
        mkExt (enabled x) (relaunchAttempted x) None (scheduler x)
          (savedEnabled x) (statusOn x) (pollInterval x) (cdpPort x)
          (delete h (polls x)) (nextPoll x) (cdpCalls x) (relaunches x)
          (warnings x) (pending x)
    | None => x
    end in
  call CdpStop x1.

(** The callback of the poll timer. *)
Definition pollTick (x : Ext) : Ext :=
  if negb (enabled x) then x else call CdpPoll x.

(** [toggle()] up to its first [await], or to its end when switching off. *)
Definition toggle (x : Ext) : Ext :=
  let x1 := set_enabled (negb (enabled x)) x in
  let x2 := persist (enabled x1) x1 in
  if enabled x2 then set_pending (pending x2 ++ [ToggleAvailable]) x2
  else updateStatusBar (stopPolling x2).

(** [toggle()] after [await cdpHandler.isCDPAvailable()]. *)
Definition toggle_available (available : bool) (x : Ext) : Ext :=
  if negb available then
    if negb (relaunchAttempted x) then proposeRelaunch 9004 ToggleRelaunch x
    else updateStatusBar (persist false (set_enabled false (warn x)))
  else updateStatusBar (startPolling x).

(** [toggle()] after [await relauncher.ensureCDPAndRelaunch()]. *)
Definition toggle_relaunched (x : Ext) : Ext :=
  updateStatusBar (persist false (set_enabled false x)).

(** The start-up check of [activate] after its availability [await]. *)
Definition activate_available (shouldStart available : bool) (x : Ext) : Ext :=
  if available && shouldStart then
    updateStatusBar (startPolling (set_enabled true x))
  else if available then x
  else if negb (relaunchAttempted x) && shouldStart then
    proposeRelaunch (cdpPort x) ActivateRelaunch x
  else x.

(** The [onDidChangeConfiguration] listener, for a change that affects the
    extension's section; [c] and [interval] are the settings after the
    change. *)
Definition configChanged (c : Config) (interval : Z) (x : Ext) : Ext :=
  let x0 := set_settings interval x in
  let x1 := if enabled x0 then startPolling (stopPolling x0) else x0 in
  set_scheduler (loadConfig c (scheduler x1)) x1.

Definition deactivate (x : Ext) : Ext :=
  let x1 := stopPolling x in
  set_scheduler (stop (scheduler x1)) x1.

(** [activate(context)] up to the [await] of its start-up check: [saved] is
    the stored on/off state, [autoStart], [interval] and [port] the settings,
    [c], [h] and [t] what the scheduler's constructor finds. *)
Definition activate (saved : option bool) (autoStart : bool) (interval : Z)
    (port : N) (c : Config) (h : gmap nat (list string)) (t : Z) : Ext :=
  let shouldStart := match saved with Some b => b | None => autoStart end in
  mkExt false false None (new_Scheduler c h t) saved false interval port ∅ 0
    [] [] 0 [ActivateAvailable shouldStart].

Inductive ExtEvent :=
| Toggle
| Settled (i : nat) (available : bool)
| PollFire (h : nat)
| StartQueueCommand
| StopQueueCommand
| ConfigChanged (c : Config) (interval : Z)
| Deactivate
| Env (e : Event).

(** What happens in the scheduler without a call from the entry point:
    timers, settled sends, time, and arrays the settings store builds. *)
Definition isEnvEvent (e : Event) : bool :=
  match e with
  | IntervalFire _ _ | TimeoutFire _ | SendSettled _ _ | Elapse _
  | CallerAlloc _ | ReadGap _ => true
  | _ => false
  end.

Definition fireExt (e : ExtEvent) (x : Ext) : option Ext :=
  match e with
  | Toggle => Some (toggle x)
  | Settled i available =>
      match pending x !! i with
      | Some k =>
          let x1 := set_pending (delete i (pending x)) x in
          Some match k with
               | ToggleAvailable => toggle_available available x1
               | ToggleRelaunch => toggle_relaunched x1
               | ActivateAvailable shouldStart =>
                   activate_available shouldStart available x1
               | ActivateRelaunch => x1
               end
      | None => None
      end
  | PollFire h =>
      match polls x !! h with
      | Some _ => Some (pollTick x)
      | None => None
      end
  | StartQueueCommand => Some (set_scheduler (startQueue None (scheduler x)) x)
  | StopQueueCommand => Some (set_scheduler (stopQueue (scheduler x)) x)
  | ConfigChanged c interval =>
      match fire (LoadConfig c) (scheduler x) with
      | Some _ => Some (configChanged c interval x)
      | None => None
      end
  | Deactivate => Some (deactivate x)
  | Env e =>
      if isEnvEvent e then
        match fire e (scheduler x) with
        | Some w => Some (set_scheduler w x)
        | None => None
        end
      else None
  end.

Fixpoint runExt (es : list ExtEvent) (x : Ext) : option Ext :=
  match es with
  | [] => Some x
  | e :: es' =>
      match fireExt e x with
      | Some x' => runExt es' x'
      | None => None
      end
  end.

Definition reachableExt (x : Ext) : Prop :=
  ∃ saved autoStart interval port c h t es,
    runExt es (activate saved autoStart interval port c h t) = Some x.

(** A toggle has not run to its end yet. *)
Definition toggleInFlight (x : Ext) : Prop :=
  ToggleAvailable ∈ pending x ∨ ToggleRelaunch ∈ pending x.

(** In the trace of handler calls the last of [start] and [stop] is a
    [start]. *)
Fixpoint started (calls : list CdpCall) (open : bool) : bool :=
  match calls with
  | [] => open
  | CdpStart :: rest => started rest true
  | CdpStop :: rest => started rest false
  | CdpPoll :: rest => started rest open
  end.

(** No [start] follows another [start] without a [stop] in between. *)
Fixpoint wellBracketed (calls : list CdpCall) (open : bool) : bool :=
  match calls with
  | [] => true
  | CdpStart :: rest => negb open && wellBracketed rest true
  | CdpStop :: rest => wellBracketed rest false
  | CdpPoll :: rest => wellBracketed rest open
  end.

End Extension.

(** ** Further concrete states *)
Module Scenario.

(** The caller's array ["A"; "B"] exists at reference 2, nothing has been
    started. *)
Definition ready : World :=
  default Session.start
    (run [CallerAlloc ["A"%string; "B"%string]] Session.start).

(** The edited settings are loaded and the interval repeater is started,
    then the queue ["A"; "B"]. *)
Definition repeating : World :=
  default Session.start
    (run ([LoadConfig Session.edited; StartInterval]
          ++ Session.begin ["A"%string; "B"%string])
       Session.start).

(** The settings ask for an interval send every 0.03 minutes. *)
Definition shortInterval : World :=
  default Session.start
    (run [LoadConfig (mkConfig true "interval" 0 (5 # 1) 0.03%float "ping")]
       Session.start).

(** Command line of an IDE started with the flag for port 9004. *)
Definition argv : list (list Z) :=
  [Relauncher.units "code"; Relauncher.cdpFlag 9004].

(** The entry point right after [activate] with nothing saved and
    [autoStart] set, and once its start-up check has found the port
    closed. *)
Definition booted : Extension.Ext :=
  Extension.activate None true 1000 9004 Session.settings Session.store 1000.

Definition portClosed : Extension.Ext :=
  default booted (Extension.runExt [Extension.Settled 0 false] booted).

(** The port was open instead, and the queue command has been used. *)
Definition polling : Extension.Ext :=
  default booted
    (Extension.runExt [Extension.Settled 0 true; Extension.StartQueueCommand]
       booted).

(** The clock gains a millisecond between the two stamps of "A", whose send
    has succeeded: [currentItemSentAt] is 1000, watermark and clock 1001. *)
Definition lagging : World :=
  default Session.start
    (run ([ReadGap 1] ++ Session.begin ["A"%string; "B"%string]
          ++ [SendSettled 0 true])
       Session.start).

(** "A" has failed once and its retry has been sent. *)
Definition retrying : World :=
  default Session.start
    (run (Session.begin ["A"%string; "B"%string] ++ Session.failAndRetry)
       Session.start).

End Scenario.

(** Reduce field reads through the record updates. *)
Ltac fields :=
  cbn [sched heap now intervals timeouts inflight sent notes readGap set_readGap
       isRunning isPaused
       queueIndex runtimeQueue lastActivityTime currentItemSentAt checkTimer
       intervalTimer config set_isRunning set_isPaused set_queueIndex
       set_runtimeQueue set_lastActivityTime set_currentItemSentAt
       set_checkTimer set_intervalTimer set_config upd set_heap set_now
       set_intervals set_timeouts set_inflight set_sent notify loadConfig
       nextTimerId clearInterval setInterval negb orb andb] in *.

(** ** Running events *)


(** Invariants are proved once for the constructor and once per event. *)
Lemma reachable_invariant (P : World → Prop) :
  (∀ c h t, P (new_Scheduler c h t)) →
  (∀ e w w', P w → fire e w = Some w' → P w') →
  ∀ w, reachable w → P w.
Proof.
  intros Hinit Hstep w (c & h & t & es & Hrun).
  pose proof (Hinit c h t) as H0. revert H0 Hrun.
  generalize (new_Scheduler c h t) as w0.
  induction es as [|e es IH]; intros w0 H0 Hrun; simpl in Hrun.
  - by simplify_eq.
  - destruct (fire e w0) as [w1|] eqn:Hf; [|done]. eauto.
Qed.

(** ** Stale callbacks

    The guard at the head of [_executeCurrentItem] and of [_checkSilence]
    makes a retry or a silence check that fires on a stopped queue inert. *)

Lemma executeCurrentItem_stopped (retry : nat) (w : World) :
  isRunning (sched w) = false → _executeCurrentItem retry w = w.
Proof. intros H. unfold _executeCurrentItem. by rewrite H. Qed.

Lemma executeCurrentItem_paused (retry : nat) (w : World) :
  isPaused (sched w) = true → _executeCurrentItem retry w = w.
Proof. intros H. unfold _executeCurrentItem. rewrite H. by rewrite orb_true_r. Qed.

Lemma checkSilence_stopped (stats : Stats) (w : World) :
  isRunning (sched w) = false → _checkSilence stats w = w.
Proof. intros H. unfold _checkSilence. by rewrite H. Qed.

Lemma settled_success (retry : nat) (w : World) :
  _executeCurrentItem_settled retry true w = w.
Proof. done. Qed.

(** C3 (defect): nothing after the [await] of [_executeCurrentItem] looks at
    [isRunning] again.  The third attempt of the only item is still pending
    when [stopQueue] runs; the queue is stopped at index 0 with nothing
    notified.  When that attempt then fails, the index moves to 1 and the
    completion notification is shown. *)
Theorem C3_failure_settling_after_stop_advances :
  (λ w, (isRunning (sched w), queueIndex (sched w), notes w)) <$>
    run (Session.begin ["A"%string] ++ Session.failAndRetry ++ Session.failAndRetry
         ++ [StopQueue]) Session.start
  = Some (false, 0, [])
  ∧ (λ w, (isRunning (sched w), queueIndex (sched w), notes w)) <$>
    run (Session.begin ["A"%string] ++ Session.failAndRetry ++ Session.failAndRetry
         ++ [StopQueue; SendSettled 0 false]) Session.start
  = Some (false, 1, [CompletionInfo 1]).
Proof. split; vm_compute; reflexivity. Qed.

(** C1 (defect): the same unguarded continuation pushes [queueIndex] past the
    end.  The third attempt of the only item is pending when [skipPrompt]
    completes the queue (index 1 of 1); its failure then advances once more,
    to index 2 of 1, and shows the completion notification a second time. *)
Theorem C1_stale_failure_overruns_queue :
  (λ w, (queueIndex (sched w), length (queue w), notes w)) <$>
    run (Session.begin ["A"%string] ++ Session.failAndRetry ++ Session.failAndRetry
         ++ [SkipPrompt; SendSettled 0 false]) Session.start
  = Some (2, 1, [CompletionInfo 1; CompletionInfo 1]).
Proof. vm_compute. reflexivity. Qed.

(** C2 (defect): [_onQueueComplete] clears [isRunning] but, unlike
    [stopQueue], leaves [isPaused] alone.  Skipping the last item of a paused
    queue ends with [isPaused] set on a queue that is not running. *)
Theorem C2_completion_while_paused_keeps_isPaused :
  (λ w, (isRunning (sched w), isPaused (sched w))) <$>
    run (Session.begin ["A"%string] ++ [PauseQueue; SkipPrompt]) Session.start
  = Some (false, true).
Proof. vm_compute. reflexivity. Qed.

(** C8 (defect): [runtimeQueue[queueIndex] || null] turns an empty-string
    item into [null].  With the queue [[""]] running at index 0 the current
    item is [""], yet [getStatus().currentPrompt] is [null]. *)
Theorem C8_empty_item_reported_as_null :
  (λ w, (queueIndex (sched w), queue w, queue w !! queueIndex (sched w),
         st_currentPrompt (getStatus w))) <$>
    run (Session.begin [""%string]) Session.start
  = Some (0, [""%string], Some ""%string, None).
Proof. vm_compute. reflexivity. Qed.

(** Apart from the empty string, [currentPrompt] is the item at the index, and
    [null] past the end. *)
Lemma getStatus_currentPrompt_item (w : World) (item : string) :
  queue w !! queueIndex (sched w) = Some item → item ≠ ""%string →
  st_currentPrompt (getStatus w) = Some item.
Proof.
  intros Hk Hne. unfold getStatus; simpl. rewrite Hk; simpl.
  destruct (String.eqb_spec item ""); [done | reflexivity].
Qed.

Lemma getStatus_currentPrompt_past_end (w : World) :
  length (queue w) ≤ queueIndex (sched w) →
  st_currentPrompt (getStatus w) = None.
Proof.
  intros Hlen. unfold getStatus; simpl.
  by rewrite (lookup_ge_None_2 _ _ Hlen).
Qed.

(** ** Starting with nothing to run *)

(** C9: when the resolved list (the argument, else the configured prompts) is
    empty, [startQueue] sends nothing, shows the empty-queue warning, and
    leaves every field of the scheduler, among them [isRunning], [isPaused],
    [queueIndex] and [runtimeQueue], as well as the arrays and the timers, as
    they were. *)
Theorem C9_startQueue_empty (arg : option nat) (w : World) :
  resolveItems arg w = [] →
  sched (startQueue arg w) = sched w
  ∧ (isRunning (sched w) = false → isRunning (sched (startQueue arg w)) = false)
  ∧ queue (startQueue arg w) = queue w
  ∧ sent (startQueue arg w) = sent w
  ∧ inflight (startQueue arg w) = inflight w
  ∧ heap (startQueue arg w) = heap w
  ∧ intervals (startQueue arg w) = intervals w
  ∧ timeouts (startQueue arg w) = timeouts w
  ∧ notes (startQueue arg w) = notes w ++ [EmptyQueueWarning].
Proof.
  intros Hempty. unfold startQueue. rewrite Hempty. simpl.
  repeat split; auto.
Qed.

Lemma C9_startQueue_empty_witness :
  resolveItems None Session.start = []
  ∧ sched (startQueue None Session.start) = sched Session.start
  ∧ notes (startQueue None Session.start) = [EmptyQueueWarning].
Proof.
  pose proof (C9_startQueue_empty None Session.start eq_refl) as H.
  split; [reflexivity|]. split; [apply H|]. apply H.
Defined.

(** ** Comparisons of seconds *)

Lemma Qgeb_true (a b : Q) : Qgeb a b = true ↔ (b <= a)%Q.
Proof. apply Qle_bool_iff. Qed.

Lemma Qltb_true (a b : Q) : Qltb a b = true ↔ (a < b)%Q.
Proof.
  unfold Qltb. rewrite negb_true_iff, <- not_true_iff_false, Qle_bool_iff.
  split; [apply Qnot_le_lt | apply Qlt_not_le].
Qed.

Lemma Qltb_false (a b : Q) : Qltb a b = false ↔ (b <= a)%Q.
Proof.
  unfold Qltb. rewrite negb_false_iff. apply Qle_bool_iff.
Qed.

Lemma millis_lt (ms secs : Z) :
  ((ms # 1000) < (secs # 1))%Q ↔ (ms < 1000 * secs)%Z.
Proof. unfold Qlt; simpl. lia. Qed.

Lemma millis_ge (ms secs : Z) :
  ((secs # 1) <= (ms # 1000))%Q ↔ (1000 * secs <= ms)%Z.
Proof. unfold Qle; simpl. lia. Qed.

Lemma millis_nonneg (ms : Z) (q : Q) :
  (0 <= q)%Q → (q <= (ms # 1000))%Q → (0 <= ms)%Z.
Proof.
  intros H0 H1. pose proof (Qle_trans _ _ _ H0 H1) as H.
  unfold Qle in H; simpl in H. lia.
Qed.

(** ** What one item execution touches *)

Lemma onQueueComplete_lastActivityTime (w : World) :
  lastActivityTime (sched (_onQueueComplete w)) = lastActivityTime (sched w).
Proof.
  unfold _onQueueComplete, _stopCheckTimer; simpl.
  by destruct (checkTimer (sched w)).
Qed.

Lemma executeCurrentItem_lastActivityTime (retry : nat) (w : World) :
  lastActivityTime (sched (_executeCurrentItem retry w)) = lastActivityTime (sched w)
  ∨ lastActivityTime (sched (_executeCurrentItem retry w))
    = Some (now w + Z.of_N (readGap w))%Z.
Proof.
  unfold _executeCurrentItem.
  repeat case_match; auto using onQueueComplete_lastActivityTime.
Qed.

Lemma advanceQueue_lastActivityTime (w : World) :
  lastActivityTime (sched (_advanceQueue w)) = lastActivityTime (sched w)
  ∨ lastActivityTime (sched (_advanceQueue w))
    = Some (now w + Z.of_N (readGap w))%Z.
Proof.
  unfold _advanceQueue. case_match.
  - left. by rewrite onQueueComplete_lastActivityTime.
  - apply (executeCurrentItem_lastActivityTime 0
             (upd (set_queueIndex (S (queueIndex (sched w)))) w)).
Qed.

Lemma onQueueComplete_queueIndex (w : World) :
  queueIndex (sched (_onQueueComplete w)) = queueIndex (sched w)
  ∧ queue (_onQueueComplete w) = queue w
  ∧ sent (_onQueueComplete w) = sent w.
Proof.
  unfold _onQueueComplete, _stopCheckTimer, queue; fields.
  by destruct (checkTimer (sched w)).
Qed.

Lemma executeCurrentItem_queueIndex (retry : nat) (w : World) :
  queueIndex (sched (_executeCurrentItem retry w)) = queueIndex (sched w)
  ∧ queue (_executeCurrentItem retry w) = queue w.
Proof.
  unfold _executeCurrentItem.
  repeat case_match; try done.
  split; apply onQueueComplete_queueIndex.
Qed.

Lemma advanceQueue_queueIndex (w : World) :
  queueIndex (sched (_advanceQueue w)) = S (queueIndex (sched w))
  ∧ queue (_advanceQueue w) = queue w.
Proof.
  unfold _advanceQueue. case_match.
  - split; apply (onQueueComplete_queueIndex
                    (upd (set_queueIndex (S (queueIndex (sched w)))) w)).
  - apply (executeCurrentItem_queueIndex 0
             (upd (set_queueIndex (S (queueIndex (sched w)))) w)).
Qed.

(** ** The watermark *)

(** C5: a silence-check tick never lowers the watermark, whatever the sample
    holds (both stamps below the watermark, zero, or missing).  While the
    tick stays on the current item this needs no assumption.  A tick that
    advances to the next item restarts the watermark at the current time; a
    silence timeout that is not negative (the configuration is a positive
    number of seconds) makes that restart a raise as well. *)
Theorem C5_watermark_monotone (stats : Stats) (w : World) :
  (queueIndex (sched (_checkSilence stats w)) = queueIndex (sched w) →
   (watermark w <= watermark (_checkSilence stats w))%Z)
  ∧ ((0 <= silenceTimeout (config (sched w)))%Q →
     (watermark w <= watermark (_checkSilence stats w))%Z).
Proof.
  unfold _checkSilence.
  destruct (negb (isRunning (sched w)) || isPaused (sched w)); [split; lia|].
  destruct (currentItemSentAt (sched w)) as [sentAt|]; [|split; lia].
  destruct (sentAt =? 0)%Z; [split; lia|].
  destruct (Qltb _ _); [split; lia|].
  set (latest := Z.max (orZero (lastActivity stats)) (orZero (lastDomChange stats))).
  set (w1 := if negb (latest =? 0)%Z
                && (toNumber (lastActivityTime (sched w)) <? latest)%Z
             then upd (set_lastActivityTime (Some latest)) w else w).
  assert (Hraise : (watermark w <= watermark w1)%Z).
  { subst w1. destruct (negb (latest =? 0)%Z); simpl; [|lia].
    destruct (Z.ltb_spec (toNumber (lastActivityTime (sched w))) latest);
      unfold watermark; simpl; lia. }
  assert (Hcfg : config (sched w1) = config (sched w)).
  { subst w1. by destruct (_ && _). }
  assert (Hnow : now w1 = now w).
  { subst w1. by destruct (_ && _). }
  assert (Hidx : queueIndex (sched w1) = queueIndex (sched w)).
  { subst w1. by destruct (_ && _). }
  destruct (Qgeb _ _) eqn:Hsil; [|done]. split.
  - destruct (advanceQueue_queueIndex w1) as [-> _]. lia.
  - intros Hpos. apply Qgeb_true in Hsil. rewrite Hcfg in Hsil.
    apply (millis_nonneg _ _ Hpos) in Hsil. fold (watermark w1) in Hsil.
    unfold watermark at 2.
    destruct (advanceQueue_lastActivityTime w1) as [-> | ->].
    + exact Hraise.
    + simpl. lia.
Qed.

Lemma C5_watermark_monotone_witness :
  (0 <= silenceTimeout (config (sched Session.active)))%Q
  ∧ watermark Session.active = 9000%Z
  ∧ (watermark Session.active
     <= watermark (_checkSilence (mkStats (Some 5000%Z) (Some 0%Z)) Session.active))%Z.
Proof.
  split; [done|]. split; [reflexivity|].
  apply (proj2 (C5_watermark_monotone (mkStats (Some 5000%Z) (Some 0%Z))
                  Session.active)).
  done.
Defined.

(** ** The silence detector *)

Section SilenceDetector.

Variable w : World.
Variables t0 a : Z.
Hypothesis Hrunning : isRunning (sched w) = true.
Hypothesis Hunpaused : isPaused (sched w) = false.
Hypothesis HsentAt : currentItemSentAt (sched w) = Some t0.
Hypothesis Hwatermark : lastActivityTime (sched w) = Some a.
Hypothesis Hstamp : t0 ≠ 0%Z.
Hypothesis Htimeout : (silenceTimeout (config (sched w)) == 30 # 1)%Q.

(** A tick at time [t] with a sample that reports nothing. *)
Lemma quiet_tick_early (t : Z) :
  (t - a < 30000)%Z →
  _checkSilence zeroStats (set_now t w) = set_now t w.
Proof.
  intros Hearly. unfold _checkSilence; simpl.
  rewrite Hrunning, Hunpaused, HsentAt; simpl.
  destruct (Z.eqb_spec t0 0); [done|].
  destruct (Qltb _ _); [done|].
  rewrite Hwatermark; simpl.
  destruct (Qgeb _ _) eqn:Hsil; [|done].
  apply Qgeb_true in Hsil. rewrite Htimeout in Hsil.
  apply millis_ge in Hsil. lia.
Qed.

Lemma quiet_tick_due (t : Z) :
  (t0 <= a)%Z → (30000 <= t - a)%Z →
  _checkSilence zeroStats (set_now t w) = _advanceQueue (set_now t w).
Proof.
  intros Horder Hdue. unfold _checkSilence; simpl.
  rewrite Hrunning, Hunpaused, HsentAt; simpl.
  destruct (Z.eqb_spec t0 0); [done|].
  destruct (Qltb _ _) eqn:Hgrace.
  { apply Qltb_true, millis_lt in Hgrace. lia. }
  rewrite Hwatermark; simpl.
  destruct (Qgeb _ _) eqn:Hsil; [done|].
  apply not_true_iff_false in Hsil. exfalso. apply Hsil.
  apply Qgeb_true. rewrite Htimeout. apply millis_ge. lia.
Qed.

End SilenceDetector.

Lemma quiet_ticks_early (ds : list Z) : ∀ (w : World) (t0 a : Z),
  isRunning (sched w) = true → isPaused (sched w) = false →
  currentItemSentAt (sched w) = Some t0 → lastActivityTime (sched w) = Some a →
  t0 ≠ 0%Z → (silenceTimeout (config (sched w)) == 30 # 1)%Q →
  Forall (λ d, 0 <= d)%Z ds → (now w + sumZ ds - a < 30000)%Z →
  silentTicks ds w = set_now (now w + sumZ ds) w.
Proof.
  induction ds as [|d ds IH]; intros w t0 a Hr Hp Hs Hw Hne Hto Hds Hlt.
  - destruct w; unfold set_now; simpl. f_equal. lia.
  - inversion Hds as [|? ? Hd Hds']; subst.
    assert (Hsum : (0 <= sumZ ds)%Z).
    { clear -Hds'. induction Hds'; simpl; lia. }
    change (sumZ (d :: ds)) with (d + sumZ ds)%Z in *.
    change (silentTicks (d :: ds) w) with (silentTicks ds (silentTick d w)).
    unfold silentTick.
    rewrite (quiet_tick_early w t0 a Hr Hp Hs Hw Hne Hto) by lia.
    rewrite (IH (set_now (now w + d) w) t0 a); simpl; auto; [|lia].
    unfold set_now; simpl. f_equal. lia.
Qed.

Lemma advanceQueue_completes (w : World) :
  length (queue w) ≤ S (queueIndex (sched w)) →
  isRunning (sched (_advanceQueue w)) = false
  ∧ notes (_advanceQueue w) = notes w ++ [CompletionInfo (length (queue w))].
Proof.
  intros Hlast. unfold _advanceQueue.
  set (w1 := upd (set_queueIndex (S (queueIndex (sched w)))) w).
  change (queue w1) with (queue w).
  change (queueIndex (sched w1)) with (S (queueIndex (sched w))).
  destruct (Nat.leb_spec (length (queue w)) (S (queueIndex (sched w)))); [|lia].
  subst w1. unfold _onQueueComplete, _stopCheckTimer, queue; fields.
  by destruct (checkTimer (sched w)).
Qed.

(** ** Reloading the configuration *)

Lemma loadConfig_queue (c : Config) (w : World) : queue (loadConfig c w) = queue w.
Proof. reflexivity. Qed.

Lemma loadConfig_isRunning (c : Config) (w : World) :
  isRunning (sched (loadConfig c w)) = isRunning (sched w).
Proof. reflexivity. Qed.

Lemma loadConfig_isPaused (c : Config) (w : World) :
  isPaused (sched (loadConfig c w)) = isPaused (sched w).
Proof. reflexivity. Qed.

Lemma loadConfig_queueIndex (c : Config) (w : World) :
  queueIndex (sched (loadConfig c w)) = queueIndex (sched w).
Proof. reflexivity. Qed.

Lemma loadConfig_now (c : Config) (w : World) : now (loadConfig c w) = now w.
Proof. reflexivity. Qed.

Ltac reload_fields :=
  rewrite ?loadConfig_queue, ?loadConfig_isRunning, ?loadConfig_isPaused,
    ?loadConfig_queueIndex, ?loadConfig_now.

Lemma loadConfig_stopCheckTimer (c : Config) (w : World) :
  _stopCheckTimer (loadConfig c w) = loadConfig c (_stopCheckTimer w).
Proof. unfold _stopCheckTimer; fields. by case_match. Qed.

Lemma loadConfig_startCheckTimer (c : Config) (w : World) :
  _startCheckTimer (loadConfig c w) = loadConfig c (_startCheckTimer w).
Proof. unfold _startCheckTimer. rewrite loadConfig_stopCheckTimer. reflexivity. Qed.

Lemma loadConfig_onQueueComplete (c : Config) (w : World) :
  _onQueueComplete (loadConfig c w) = loadConfig c (_onQueueComplete w).
Proof.
  unfold _onQueueComplete.
  change (upd (set_isRunning false) (loadConfig c w))
    with (loadConfig c (upd (set_isRunning false) w)).
  rewrite loadConfig_stopCheckTimer. reflexivity.
Qed.

Lemma loadConfig_stopQueue (c : Config) (w : World) :
  stopQueue (loadConfig c w) = loadConfig c (stopQueue w).
Proof.
  unfold stopQueue.
  apply (loadConfig_stopCheckTimer c
           (upd (set_isPaused false) (upd (set_isRunning false) w))).
Qed.

Lemma loadConfig_pauseQueue (c : Config) (w : World) :
  pauseQueue (loadConfig c w) = loadConfig c (pauseQueue w).
Proof. unfold pauseQueue; fields. by case_match. Qed.

Lemma loadConfig_executeCurrentItem (c : Config) (retry : nat) (w : World) :
  _executeCurrentItem retry (loadConfig c w) = loadConfig c (_executeCurrentItem retry w).
Proof.
  unfold _executeCurrentItem. rewrite loadConfig_queue; fields.
  repeat case_match; try reflexivity. apply loadConfig_onQueueComplete.
Qed.

Lemma loadConfig_advanceQueue (c : Config) (w : World) :
  _advanceQueue (loadConfig c w) = loadConfig c (_advanceQueue w).
Proof.
  unfold _advanceQueue.
  change (upd (set_queueIndex (S (queueIndex (sched (loadConfig c w)))))
            (loadConfig c w))
    with (loadConfig c (upd (set_queueIndex (S (queueIndex (sched w)))) w)).
  reload_fields. case_match.
  - apply loadConfig_onQueueComplete.
  - apply loadConfig_executeCurrentItem.
Qed.

Lemma loadConfig_resumeQueue (c : Config) (w : World) :
  resumeQueue (loadConfig c w) = loadConfig c (resumeQueue w).
Proof.
  unfold resumeQueue.
  change (isRunning (sched (loadConfig c w))) with (isRunning (sched w)).
  change (isPaused (sched (loadConfig c w))) with (isPaused (sched w)).
  case_match; [done|].
  apply (loadConfig_executeCurrentItem c 0 (upd (set_isPaused false) w)).
Qed.

Lemma loadConfig_skipPrompt (c : Config) (w : World) :
  skipPrompt (loadConfig c w) = loadConfig c (skipPrompt w).
Proof.
  unfold skipPrompt.
  change (isRunning (sched (loadConfig c w))) with (isRunning (sched w)).
  case_match; [done|]. apply loadConfig_advanceQueue.
Qed.

Lemma loadConfig_settled (c : Config) (retry : nat) (ok : bool) (w : World) :
  _executeCurrentItem_settled retry ok (loadConfig c w)
  = loadConfig c (_executeCurrentItem_settled retry ok w).
Proof.
  unfold _executeCurrentItem_settled.
  repeat case_match; try reflexivity. apply loadConfig_advanceQueue.
Qed.

Lemma loadConfig_stopInterval (c : Config) (w : World) :
  stopInterval (loadConfig c w) = loadConfig c (stopInterval w).
Proof. unfold stopInterval; fields. by case_match. Qed.

Lemma loadConfig_startQueue_arg (c : Config) (l : nat) (w : World) :
  startQueue (Some l) (loadConfig c w) = loadConfig c (startQueue (Some l) w).
Proof.
  unfold startQueue.
  change (resolveItems (Some l) (loadConfig c w)) with (resolveItems (Some l) w).
  case_match; [reflexivity|].
  change (heap (loadConfig c w)) with (heap w).
  set (l' := fresh (dom (heap w))).
  set (items := resolveItems (Some l) w).
  rewrite <- loadConfig_startCheckTimer. f_equal.
  rewrite <- loadConfig_executeCurrentItem. reflexivity.
Qed.

Lemma loadConfig_checkSilence (c : Config) (stats : Stats) (w : World) :
  (silenceTimeout c == silenceTimeout (config (sched w)))%Q →
  _checkSilence stats (loadConfig c w) = loadConfig c (_checkSilence stats w).
Proof.
  intros Heq. unfold _checkSilence.
  change (isRunning (sched (loadConfig c w))) with (isRunning (sched w)).
  change (isPaused (sched (loadConfig c w))) with (isPaused (sched w)).
  change (currentItemSentAt (sched (loadConfig c w))) with (currentItemSentAt (sched w)).
  destruct (_ || _); [done|].
  destruct (currentItemSentAt (sched w)) as [sentAt|]; [|done].
  destruct (sentAt =? 0)%Z; [done|].
  change (now (loadConfig c w)) with (now w).
  destruct (Qltb _ _); [done|].
  change (lastActivityTime (sched (loadConfig c w))) with (lastActivityTime (sched w)).
  destruct (_ && _); simpl; unfold Qgeb; rewrite Heq;
    destruct (Qle_bool _ _); try done.
  - apply (loadConfig_advanceQueue c (upd (set_lastActivityTime _) w)).
  - apply loadConfig_advanceQueue.
Qed.

Lemma stopInterval_config (w : World) :
  config (sched (stopInterval w)) = config (sched w).
Proof. unfold stopInterval. by case_match. Qed.

Lemma stopInterval_nextTimerId (w : World) :
  nextTimerId (stopInterval w) = nextTimerId w.
Proof. unfold stopInterval. by case_match. Qed.

Lemma startInterval_reloaded (c : Config) (w : World) :
  intervalPrompt c ≠ ""%string →
  startInterval (loadConfig c w)
  = upd (set_intervalTimer (Some (nextTimerId w)))
      (setInterval (IntervalSendCb (intervalPrompt c))
         (intervalMinutes c * 60 * 1000)%float
         (stopInterval (loadConfig c w))).2.
Proof.
  intros Hne. unfold startInterval. rewrite stopInterval_config.
  change (config (sched (loadConfig c w))) with c.
  destruct (String.eqb_spec (intervalPrompt c) ""); [done|].
  simpl. by rewrite stopInterval_nextTimerId.
Qed.

Lemma checkSilence_reloaded (c : Config) (w : World) (t0 wm : Z) :
  isRunning (sched w) = true → isPaused (sched w) = false →
  currentItemSentAt (sched w) = Some t0 → t0 ≠ 0%Z →
  lastActivityTime (sched w) = Some wm →
  (10000 <= now w - t0)%Z →
  _checkSilence zeroStats (loadConfig c w)
  = if Qgeb ((now w - wm) # 1000) (silenceTimeout c)
    then _advanceQueue (loadConfig c w) else loadConfig c w.
Proof.
  intros Hr Hp Hs Hne Hw Hgrace. unfold _checkSilence.
  reload_fields. rewrite Hr, Hp.
  change (currentItemSentAt (sched (loadConfig c w))) with (currentItemSentAt (sched w)).
  rewrite Hs. simpl negb. simpl orb. cbv iota.
  destruct (Z.eqb_spec t0 0); [done|].
  destruct (Qltb _ _) eqn:Hq.
  { apply Qltb_true, millis_lt in Hq. lia. }
  change (Z.max (orZero (lastActivity zeroStats)) (orZero (lastDomChange zeroStats)))
    with 0%Z.
  simpl andb. cbv iota. reload_fields.
  change (lastActivityTime (sched (loadConfig c w))) with (lastActivityTime (sched w)).
  rewrite Hw. reflexivity.
Qed.

(** C7, counterexample: item "A" of the queue ["A"; "B"] was sent 12 seconds
    ago and the configured silence timeout is 30.  The next silence check
    leaves the queue at index 0; if the configuration is reloaded with a
    timeout of 5 first, the same check advances the running queue to "B". *)
Lemma C7_reload_changes_run_in_progress :
  (λ w, (queueIndex (sched w), sent w)) <$>
    run (Session.begin ["A"%string; "B"%string]
         ++ [SendSettled 0 true; Elapse 12000;
             IntervalFire 0 Session.noStats]) Session.start
  = Some (0, ["A"%string])
  ∧ (λ w, (queueIndex (sched w), sent w)) <$>
    run (Session.begin ["A"%string; "B"%string]
         ++ [SendSettled 0 true; Elapse 12000;
             LoadConfig (mkConfig false "queue" 0 (5 # 1) 30%float "");
             IntervalFire 0 Session.noStats]) Session.start
  = Some (1, ["A"%string; "B"%string]).
Proof. split; vm_compute; reflexivity. Qed.

(** C7, as amended: [loadConfig] replaces [this.config] and nothing else, so
    the run state ([isRunning], [isPaused], [queueIndex], [runtimeQueue] and
    its contents, [currentItemSentAt], the watermark), the timers, the pending
    sends and the notifications are as before.  The reloaded prompts are read
    by the next [startQueue()] and the reloaded interval settings by the next
    [startInterval()]; every other operation on the run in progress does the
    same with either configuration.  The silence check is the exception: it
    reads [silenceTimeout] on every tick, so the tick that follows a reload
    decides with the reloaded value. *)
Theorem C7_loadConfig_frame (c : Config) (w : World) :
  (sched (loadConfig c w) = set_config c (sched w)
   ∧ isRunning (sched (loadConfig c w)) = isRunning (sched w)
   ∧ isPaused (sched (loadConfig c w)) = isPaused (sched w)
   ∧ queueIndex (sched (loadConfig c w)) = queueIndex (sched w)
   ∧ runtimeQueue (sched (loadConfig c w)) = runtimeQueue (sched w)
   ∧ queue (loadConfig c w) = queue w
   ∧ currentItemSentAt (sched (loadConfig c w)) = currentItemSentAt (sched w)
   ∧ lastActivityTime (sched (loadConfig c w)) = lastActivityTime (sched w)
   ∧ heap (loadConfig c w) = heap w
   ∧ intervals (loadConfig c w) = intervals w
   ∧ timeouts (loadConfig c w) = timeouts w
   ∧ inflight (loadConfig c w) = inflight w
   ∧ sent (loadConfig c w) = sent w
   ∧ notes (loadConfig c w) = notes w)
  ∧ (resolveItems None (loadConfig c w) = default [] (heap w !! prompts c)
     ∧ (intervalPrompt c ≠ ""%string →
        startInterval (loadConfig c w)
        = upd (set_intervalTimer (Some (nextTimerId w)))
            (setInterval (IntervalSendCb (intervalPrompt c))
               (intervalMinutes c * 60 * 1000)%float
               (stopInterval (loadConfig c w))).2))
  ∧ ((∀ l, startQueue (Some l) (loadConfig c w)
           = loadConfig c (startQueue (Some l) w))
     ∧ stopQueue (loadConfig c w) = loadConfig c (stopQueue w)
     ∧ pauseQueue (loadConfig c w) = loadConfig c (pauseQueue w)
     ∧ resumeQueue (loadConfig c w) = loadConfig c (resumeQueue w)
     ∧ skipPrompt (loadConfig c w) = loadConfig c (skipPrompt w)
     ∧ stopInterval (loadConfig c w) = loadConfig c (stopInterval w)
     ∧ (∀ retry, _executeCurrentItem retry (loadConfig c w)
                 = loadConfig c (_executeCurrentItem retry w))
     ∧ (∀ retry ok, _executeCurrentItem_settled retry ok (loadConfig c w)
                    = loadConfig c (_executeCurrentItem_settled retry ok w))
     ∧ (∀ stats, (silenceTimeout c == silenceTimeout (config (sched w)))%Q →
                 _checkSilence stats (loadConfig c w)
                 = loadConfig c (_checkSilence stats w)))
  ∧ (∀ t0 wm,
       isRunning (sched w) = true → isPaused (sched w) = false →
       currentItemSentAt (sched w) = Some t0 → t0 ≠ 0%Z →
       lastActivityTime (sched w) = Some wm →
       (10000 <= now w - t0)%Z →
       _checkSilence zeroStats (loadConfig c w)
       = if Qgeb ((now w - wm) # 1000) (silenceTimeout c)
         then _advanceQueue (loadConfig c w) else loadConfig c w).
Proof.
  split; [repeat split|]. split; [split; [reflexivity|apply startInterval_reloaded]|].
  split.
  - repeat split;
      auto using loadConfig_startQueue_arg, loadConfig_stopQueue, loadConfig_pauseQueue,
        loadConfig_resumeQueue, loadConfig_skipPrompt, loadConfig_stopInterval,
        loadConfig_executeCurrentItem, loadConfig_settled, loadConfig_checkSilence.
  - apply checkSilence_reloaded.
Qed.

(** ** The silence-check timer *)

Lemma TimerInv_ext (w w' : World) :
  intervals w' = intervals w → nextTimerId w' = nextTimerId w →
  checkTimer (sched w') = checkTimer (sched w) →
  TimerInv w → TimerInv w'.
Proof.
  unfold TimerInv, isCheckTimer. intros -> -> ->. done.
Qed.

Lemma TimerInv_none (w : World) :
  TimerInv w → checkTimer (sched w) = None → ∀ h, ¬ isCheckTimer w h.
Proof.
  intros (_ & _ & Hone) Hnone h Hh. apply Hone in Hh. congruence.
Qed.

Lemma stopCheckTimer_checkTimer (w : World) :
  checkTimer (sched (_stopCheckTimer w)) = None.
Proof. unfold _stopCheckTimer. by case_match. Qed.

Lemma TimerInv_stopCheckTimer (w : World) :
  TimerInv w → TimerInv (_stopCheckTimer w).
Proof.
  intros Hinv. unfold _stopCheckTimer.
  destruct (checkTimer (sched w)) as [h|] eqn:Hh; [|done].
  destruct Hinv as (Hlt & Hck & Hone). repeat split; unfold isCheckTimer; fields.
  - intros h' iv [_ Hin]%lookup_delete_Some. eauto.
  - done.
  - intros h' (iv & [Hne Hin]%lookup_delete_Some & Hcb).
    assert (checkTimer (sched w) = Some h') by (apply Hone; by exists iv).
    congruence.
Qed.

Lemma TimerInv_startCheckTimer (w : World) :
  TimerInv w → TimerInv (_startCheckTimer w).
Proof.
  intros Hinv. unfold _startCheckTimer.
  pose proof (TimerInv_stopCheckTimer w Hinv) as Hinv1.
  pose proof (TimerInv_none _ Hinv1 (stopCheckTimer_checkTimer w)) as Hnone.
  destruct Hinv1 as (Hlt & Hck & Hone).
  set (w1 := _stopCheckTimer w) in *. repeat split; unfold isCheckTimer; fields.
  - intros h iv [[<- _] | [_ Hin]]%lookup_insert_Some; [lia|].
    apply Hlt in Hin. lia.
  - intros h [= <-]. lia.
  - intros h (iv & [[<- _] | [_ Hin]]%lookup_insert_Some & Hcb); [done|].
    exfalso. apply (Hnone h). by exists iv.
Qed.

Lemma TimerInv_stopInterval (w : World) :
  TimerInv w → TimerInv (stopInterval w).
Proof.
  intros (Hlt & Hck & Hone). unfold stopInterval.
  destruct (intervalTimer (sched w)) as [h|]; [|done].
  repeat split; unfold isCheckTimer; fields.
  - intros h' iv [_ Hin]%lookup_delete_Some. eauto.
  - done.
  - intros h' (iv & [Hne Hin]%lookup_delete_Some & Hcb).
    apply Hone. by exists iv.
Qed.

Lemma TimerInv_startInterval (w : World) :
  TimerInv w → TimerInv (startInterval w).
Proof.
  intros Hinv. unfold startInterval.
  pose proof (TimerInv_stopInterval w Hinv) as (Hlt & Hck & Hone).
  set (w1 := stopInterval w) in *.
  destruct (String.eqb _ _); [done|].
  repeat split; unfold isCheckTimer; fields.
  - intros h iv [[<- _] | [_ Hin]]%lookup_insert_Some; [lia|].
    apply Hlt in Hin. lia.
  - intros h Hh. apply Hck in Hh. lia.
  - intros h (iv & [[<- <-] | [_ Hin]]%lookup_insert_Some & Hcb); [done|].
    apply Hone. by exists iv.
Qed.

Lemma TimerInv_onQueueComplete (w : World) :
  TimerInv w → TimerInv (_onQueueComplete w).
Proof.
  intros Hinv. unfold _onQueueComplete.
  eapply (TimerInv_ext (_stopCheckTimer (upd (set_isRunning false) w)));
    [done..|].
  apply TimerInv_stopCheckTimer. revert Hinv. by apply TimerInv_ext.
Qed.

Lemma TimerInv_executeCurrentItem (retry : nat) (w : World) :
  TimerInv w → TimerInv (_executeCurrentItem retry w).
Proof.
  intros Hinv. unfold _executeCurrentItem.
  repeat case_match; auto using TimerInv_onQueueComplete.
Qed.

Lemma TimerInv_advanceQueue (w : World) :
  TimerInv w → TimerInv (_advanceQueue w).
Proof.
  intros Hinv. unfold _advanceQueue.
  assert (TimerInv (upd (set_queueIndex (S (queueIndex (sched w)))) w))
    by (revert Hinv; by apply TimerInv_ext).
  case_match; auto using TimerInv_onQueueComplete, TimerInv_executeCurrentItem.
Qed.

Lemma TimerInv_settled (retry : nat) (ok : bool) (w : World) :
  TimerInv w → TimerInv (_executeCurrentItem_settled retry ok w).
Proof.
  intros Hinv. unfold _executeCurrentItem_settled.
  repeat case_match; auto using TimerInv_advanceQueue.
Qed.

Lemma TimerInv_checkSilence (stats : Stats) (w : World) :
  TimerInv w → TimerInv (_checkSilence stats w).
Proof.
  intros Hinv. unfold _checkSilence.
  destruct (_ || _); [done|].
  destruct (currentItemSentAt (sched w)) as [sentAt|]; [|done].
  destruct (sentAt =? 0)%Z; [done|]. destruct (Qltb _ _); [done|].
  destruct (_ && _); destruct (Qgeb _ _); try done;
    by apply TimerInv_advanceQueue.
Qed.

Lemma TimerInv_startQueue (arg : option nat) (w : World) :
  TimerInv w → TimerInv (startQueue arg w).
Proof.
  intros Hinv. unfold startQueue. case_match.
  - revert Hinv. by apply TimerInv_ext.
  - apply TimerInv_startCheckTimer, TimerInv_executeCurrentItem.
    revert Hinv. by apply TimerInv_ext.
Qed.

Lemma TimerInv_fire (e : Event) (w w' : World) :
  TimerInv w → fire e w = Some w' → TimerInv w'.
Proof.
  intros Hinv Hfire. destruct e; simpl in Hfire.
  - assert (w' = startQueue arg w) as ->
      by (destruct arg; [case_decide|]; congruence).
    by apply TimerInv_startQueue.
  - simplify_eq. unfold stopQueue. apply TimerInv_stopCheckTimer.
    revert Hinv. by apply TimerInv_ext.
  - simplify_eq. unfold pauseQueue. case_match; [done|].
    revert Hinv. by apply TimerInv_ext.
  - simplify_eq. unfold resumeQueue. case_match; [done|].
    apply TimerInv_executeCurrentItem. revert Hinv. by apply TimerInv_ext.
  - simplify_eq. unfold skipPrompt. case_match; [done|].
    by apply TimerInv_advanceQueue.
  - simplify_eq. by apply TimerInv_startInterval.
  - simplify_eq. by apply TimerInv_stopInterval.
  - simplify_eq. unfold stop, stopQueue.
    apply TimerInv_stopInterval, TimerInv_stopCheckTimer.
    revert Hinv. by apply TimerInv_ext.
  - case_decide; simplify_eq. revert Hinv. by apply TimerInv_ext.
  - destruct (intervals w !! h) as [[ms [|p]]|]; simplify_eq.
    + by apply TimerInv_checkSilence.
    + revert Hinv. by apply TimerInv_ext.
  - destruct (timeouts w !! i); [|done]. case_match; simplify_eq.
    apply TimerInv_executeCurrentItem. revert Hinv. by apply TimerInv_ext.
  - destruct (inflight w !! i); simplify_eq.
    apply TimerInv_settled. revert Hinv. by apply TimerInv_ext.
  - case_match; simplify_eq. revert Hinv. by apply TimerInv_ext.
  - simplify_eq. revert Hinv. by apply TimerInv_ext.
  - case_decide; simplify_eq. revert Hinv. by apply TimerInv_ext.
  - simplify_eq. revert Hinv. by apply TimerInv_ext.
Qed.

Lemma TimerInv_reachable (w : World) : reachable w → TimerInv w.
Proof.
  apply reachable_invariant; [|intros e w1 w2; apply TimerInv_fire].
  intros c h t. unfold new_Scheduler.
  repeat split; unfold isCheckTimer; fields.
  - intros h' iv Hin. by rewrite lookup_empty in Hin.
  - done.
  - intros h' (iv & Hin & _). by rewrite lookup_empty in Hin.
Qed.

(** ** Starting a run *)

Lemma startCheckTimer_eq (w : World) :
  _startCheckTimer w
  = mkWorld (set_checkTimer (Some (nextTimerId w)) (sched w)) (heap w) (now w)
      (<[nextTimerId w := mkInterval 5000%float CheckSilenceCb]>
         (match checkTimer (sched w) with
          | Some h => delete h (intervals w)
          | None => intervals w
          end))
      (timeouts w) (inflight w) (sent w) (notes w) (S (nextTimerId w))
      (readGap w).
Proof.
  unfold _startCheckTimer, _stopCheckTimer.
  destruct (checkTimer (sched w)); reflexivity.
Qed.

(** With something to run, [startQueue] copies the list into a new array,
    resets the run state, sends the first item and replaces the timer. *)
Lemma startQueue_nonempty (arg : option nat) (w : World) (item : string)
    (rest : list string) :
  resolveItems arg w = item :: rest →
  startQueue arg w
  = _startCheckTimer
      (mkWorld
         (mkScheduler true false 0 (fresh (dom (heap w)))
            (Some (now w + Z.of_N (readGap w))%Z) (Some (now w))
            (checkTimer (sched w)) (intervalTimer (sched w)) (config (sched w)))
         (<[fresh (dom (heap w)) := item :: rest]> (heap w))
         (now w + Z.of_N (readGap w))%Z
         (intervals w) (timeouts w) (inflight w ++ [mkPending item 0])
         (sent w ++ [item]) (notes w) (nextTimerId w) (readGap w)).
Proof.
  intros Hitems. unfold startQueue. rewrite Hitems.
  change (length (item :: rest) =? 0) with false. cbv iota.
  f_equal. unfold _executeCurrentItem, queue; fields.
  rewrite lookup_insert_eq. reflexivity.
Qed.

Lemma fresh_array (h : gmap nat (list string)) : h !! fresh (dom h) = None.
Proof. apply not_elem_of_dom, is_fresh. Qed.

(** C10: [startQueue] with a non-empty list restarts whatever state the
    scheduler is in, a run in progress included.  No notification is shown;
    [runtimeQueue] is a newly allocated array holding the items, distinct
    from the array passed in, so writing to any other array, the caller's
    among them, leaves the queue as it is; the
    index is 0, the queue is running and not paused, and the first item has
    been sent.  The timer [checkTimer] referred to is gone and the only
    silence-check timer now active is the new one.  In every reachable state
    at most one silence-check timer is active. *)
Theorem C10_startQueue_restart :
  (∀ (arg : option nat) (w : World) (item : string) (rest : list string),
     reachable w →
     resolveItems arg w = item :: rest →
     notes (startQueue arg w) = notes w
     ∧ heap w !! runtimeQueue (sched (startQueue arg w)) = None
     ∧ (∀ l, arg = Some l → is_Some (heap w !! l) →
             runtimeQueue (sched (startQueue arg w)) ≠ l)
     ∧ queue (startQueue arg w) = item :: rest
     ∧ (∀ l items',
          l ≠ runtimeQueue (sched (startQueue arg w)) →
          queue (set_heap (<[l := items']> (heap (startQueue arg w)))
                   (startQueue arg w)) = item :: rest)
     ∧ queueIndex (sched (startQueue arg w)) = 0
     ∧ isRunning (sched (startQueue arg w)) = true
     ∧ isPaused (sched (startQueue arg w)) = false
     ∧ sent (startQueue arg w) = sent w ++ [item]
     ∧ (∀ h, checkTimer (sched w) = Some h →
             intervals (startQueue arg w) !! h = None)
     ∧ (∃ h, checkTimer (sched (startQueue arg w)) = Some h
             ∧ intervals (startQueue arg w) !! h
               = Some (mkInterval 5000%float CheckSilenceCb)
             ∧ ∀ h', isCheckTimer (startQueue arg w) h' → h' = h))
  ∧ (∀ (w : World), reachable w →
       ∀ h1 h2, isCheckTimer w h1 → isCheckTimer w h2 → h1 = h2).
Proof.
  split.
  - intros arg w item rest Hreach Hitems.
    pose proof (TimerInv_reachable w Hreach) as Hinv.
    pose proof (TimerInv_startQueue arg w Hinv) as (_ & _ & Hone').
    destruct Hinv as (_ & Hck & _).
    revert Hone'. rewrite (startQueue_nonempty arg w item rest Hitems).
    rewrite startCheckTimer_eq. unfold queue; fields. intros Hone'.
    repeat split.
    + apply fresh_array.
    + intros l _ Hl <-. rewrite fresh_array in Hl. by destruct Hl.
    + by rewrite lookup_insert_eq.
    + intros l items' Hne. rewrite lookup_insert_ne by done.
      by rewrite lookup_insert_eq.
    + intros h Hh. rewrite Hh.
      rewrite lookup_insert_ne by (apply Hck in Hh; lia).
      apply lookup_delete_eq.
    + exists (nextTimerId w). split; [done|]. split; [apply lookup_insert_eq|].
      intros h' Hh'. apply Hone' in Hh'. congruence.
  - intros w Hreach h1 h2 H1 H2.
    destruct (TimerInv_reachable w Hreach) as (_ & _ & Hone).
    apply Hone in H1, H2. congruence.
Qed.

(** ** The retry policy *)















Lemma executeCurrentItem_sends (retry : nat) (w : World) (item : string) :
  isRunning (sched w) = true → isPaused (sched w) = false →
  queue w !! queueIndex (sched w) = Some item →
  _executeCurrentItem retry w
  = set_inflight (inflight w ++ [mkPending item retry])
      (set_sent (sent w ++ [item])
         (upd (set_lastActivityTime (Some (now w + Z.of_N (readGap w))%Z))
            (set_now (now w + Z.of_N (readGap w))
               (upd (set_currentItemSentAt (Some (now w))) w)))).
Proof.
  intros Hr Hp Hitem. unfold _executeCurrentItem. rewrite Hr, Hp, Hitem.
  simpl negb. simpl orb. cbv iota.
  apply lookup_lt_Some in Hitem.
  by destruct (Nat.leb_spec (length (queue w)) (queueIndex (sched w))); [lia|].
Qed.

Lemma advanceQueue_sent (w : World) :
  isRunning (sched w) = true → isPaused (sched w) = false →
  sent (_advanceQueue w)
  = sent w ++ match queue w !! S (queueIndex (sched w)) with
              | Some next => [next]
              | None => []
              end.
Proof.
  intros Hr Hp. unfold _advanceQueue.
  set (w1 := upd (set_queueIndex (S (queueIndex (sched w)))) w).
  change (queue w1) with (queue w).
  change (queueIndex (sched w1)) with (S (queueIndex (sched w))).
  destruct (Nat.leb_spec (length (queue w)) (S (queueIndex (sched w)))) as [Hge|Hlt].
  - rewrite (lookup_ge_None_2 _ _ Hge), app_nil_r.
    by destruct (onQueueComplete_queueIndex w1) as (_ & _ & ->).
  - destruct (lookup_lt_is_Some_2 _ _ Hlt) as [next Hnext]. rewrite Hnext.
    by rewrite (executeCurrentItem_sends 0 w1 next).
Qed.









(** ** The silence timeout *)

(** C6, counterexample: the clock gains one millisecond between the two
    stamps of "A", so [currentItemSentAt] is 1000 and the watermark 1001.
    With [silenceTimeout] 30 and samples reporting no activity, the tick
    exactly 30 seconds after [currentItemSentAt] finds 29.999 seconds of
    silence and leaves the queue at "A"; a tick one millisecond later
    advances to "B". *)
Lemma C6_tick_thirty_seconds_after_send_keeps_item :
  (λ w, (currentItemSentAt (sched w), lastActivityTime (sched w), now w,
         queueIndex (sched w), sent w)) <$>
    run ([ReadGap 1] ++ Session.begin ["A"%string; "B"%string]
         ++ [SendSettled 0 true; Elapse 29999; IntervalFire 0 zeroStats])
      Session.start
  = Some (Some 1000%Z, Some 1001%Z, 31000%Z, 0, ["A"%string])
  ∧ (λ w, (queueIndex (sched w), sent w)) <$>
    run ([ReadGap 1] ++ Session.begin ["A"%string; "B"%string]
         ++ [SendSettled 0 true; Elapse 30000; IntervalFire 0 zeroStats])
      Session.start
  = Some (1, ["A"%string; "B"%string]).
Proof. split; vm_compute; reflexivity. Qed.

(** C6, as amended.  Under any configuration and sample a tick less than 10
    seconds after [currentItemSentAt] changes nothing, so it cannot advance
    the queue.  [_executeCurrentItem] stamps [currentItemSentAt] with one
    read of the clock and the watermark [lastActivityTime] with the next,
    so the watermark is never the earlier of the two.  With [silenceTimeout]
    30 and samples reporting [lastActivity] 0 and [lastDomChange] 0
    throughout, an item with such stamps survives unchanged every tick that
    comes less than 30 seconds after the watermark, and the first tick at 30
    seconds or more after it advances the queue: the index grows by one and
    the queue keeps its items; the next item, if there is one, is sent, and
    otherwise the run ends with the completion notification. *)
Theorem C6_silence_grace_and_timeout :
  (∀ (stats : Stats) (w : World) (sentAt : Z),
     currentItemSentAt (sched w) = Some sentAt →
     (now w - sentAt < 10000)%Z →
     _checkSilence stats w = w)
  ∧ (∀ (retry : nat) (w : World) (item : string),
       isRunning (sched w) = true → isPaused (sched w) = false →
       queue w !! queueIndex (sched w) = Some item →
       currentItemSentAt (sched (_executeCurrentItem retry w)) = Some (now w)
       ∧ lastActivityTime (sched (_executeCurrentItem retry w))
         = Some (now w + Z.of_N (readGap w))%Z
       ∧ (now w <= now w + Z.of_N (readGap w))%Z)
  ∧ (∀ (w : World) (t0 a : Z) (ds : list Z) (d : Z),
       isRunning (sched w) = true → isPaused (sched w) = false →
       currentItemSentAt (sched w) = Some t0 →
       lastActivityTime (sched w) = Some a →
       t0 ≠ 0%Z → (t0 <= a)%Z →
       (silenceTimeout (config (sched w)) == 30 # 1)%Q →
       Forall (λ d, 0 <= d)%Z ds →
       (now w + sumZ ds - a < 30000)%Z →
       (30000 <= now w + sumZ ds + d - a)%Z →
       silentTicks ds w = set_now (now w + sumZ ds) w
       ∧ silentTick d (silentTicks ds w)
         = _advanceQueue (set_now (now w + sumZ ds + d) w)
       ∧ queueIndex (sched (silentTick d (silentTicks ds w)))
         = S (queueIndex (sched w))
       ∧ queue (silentTick d (silentTicks ds w)) = queue w
       ∧ sent (silentTick d (silentTicks ds w))
         = sent w ++ match queue w !! S (queueIndex (sched w)) with
                     | Some next => [next]
                     | None => []
                     end
       ∧ (length (queue w) ≤ S (queueIndex (sched w)) →
          isRunning (sched (silentTick d (silentTicks ds w))) = false
          ∧ notes (silentTick d (silentTicks ds w))
            = notes w ++ [CompletionInfo (length (queue w))])).
Proof.
  split; [|split].
  - intros stats w sentAt Hs Hgrace. unfold _checkSilence. rewrite Hs.
    destruct (_ || _); [done|]. destruct (sentAt =? 0)%Z; [done|].
    destruct (Qltb _ _) eqn:Hq; [done|].
    apply Qltb_false, millis_ge in Hq. lia.
  - intros retry w item Hr Hp Hitem.
    rewrite (executeCurrentItem_sends retry w item) by done.
    split_and!; [done | done | lia].
  - intros w t0 a ds d Hr Hp Hs Hw Hne Horder Hto Hds Hlt Hge.
    pose proof (quiet_ticks_early ds w t0 a Hr Hp Hs Hw Hne Hto Hds Hlt) as Hquiet.
    assert (Hdue : silentTick d (silentTicks ds w)
                   = _advanceQueue (set_now (now w + sumZ ds + d) w)).
    { rewrite Hquiet. unfold silentTick; simpl.
      apply (quiet_tick_due w t0 a Hr Hp Hs Hw Hne Hto); [done | lia]. }
    split; [exact Hquiet|]. split; [exact Hdue|]. rewrite Hdue.
    set (w1 := set_now (now w + sumZ ds + d) w).
    destruct (advanceQueue_queueIndex w1) as [Hidx Hq].
    split; [exact Hidx|]. split; [exact Hq|].
    split; [by apply (advanceQueue_sent w1)|].
    intros Hlast. by apply (advanceQueue_completes w1).
Qed.

(** ** The theorems at work on the concrete session *)

Lemma Session_running_reachable : reachable Session.running.
Proof.
  exists Session.settings, Session.store, 1000%Z,
    (Session.begin ["A"%string; "B"%string]).
  reflexivity.
Qed.


Lemma C6_silence_grace_and_timeout_witness :
  _checkSilence Session.noStats (set_now 9000 Session.running)
  = set_now 9000 Session.running
  ∧ silentTicks [5000; 5000; 5000; 5000; 5000]%Z Scenario.lagging
    = set_now 26001 Scenario.lagging
  ∧ queueIndex
      (sched (silentTick 5000
                (silentTicks [5000; 5000; 5000; 5000; 5000]%Z Scenario.lagging)))
    = 1
  ∧ sent (silentTick 5000
            (silentTicks [5000; 5000; 5000; 5000; 5000]%Z Scenario.lagging))
    = ["A"%string; "B"%string].
Proof.
  destruct C6_silence_grace_and_timeout as (Hgrace & _ & Hquiet). split.
  - apply (Hgrace Session.noStats (set_now 9000 Session.running) 1000%Z);
      reflexivity.
  - assert (Hticks : Forall (λ d, 0 <= d)%Z [5000; 5000; 5000; 5000; 5000]%Z)
      by (repeat constructor; lia).
    destruct (Hquiet Scenario.lagging 1000%Z 1001%Z
                [5000; 5000; 5000; 5000; 5000]%Z 5000%Z
                eq_refl eq_refl eq_refl eq_refl ltac:(lia) ltac:(lia)
                ltac:(by vm_compute) Hticks ltac:(by vm_compute)
                ltac:(by vm_compute))
      as (Hearly & _ & Hidx & _ & Hsent & _).
    split_and!; [exact Hearly | exact Hidx | exact Hsent].
Defined.

Lemma C7_loadConfig_frame_witness :
  queueIndex (sched (loadConfig Session.edited Session.running)) = 0
  ∧ queue (loadConfig Session.edited Session.running) = ["A"%string; "B"%string]
  ∧ _checkSilence zeroStats (loadConfig Session.edited (set_now 13000 Session.running))
    = _advanceQueue (loadConfig Session.edited (set_now 13000 Session.running)).
Proof.
  split; [|split].
  - apply (C7_loadConfig_frame Session.edited Session.running).
  - apply (C7_loadConfig_frame Session.edited Session.running).
  - destruct (C7_loadConfig_frame Session.edited (set_now 13000 Session.running))
      as (_ & _ & _ & Htick).
    apply (Htick 1000%Z 1000%Z); try reflexivity; by vm_compute.
Defined.

Lemma C10_startQueue_restart_witness :
  resolveItems (Some 2) Session.running = ["A"%string; "B"%string]
  ∧ notes (startQueue (Some 2) Session.running) = []
  ∧ queueIndex (sched (startQueue (Some 2) Session.running)) = 0
  ∧ intervals (startQueue (Some 2) Session.running) !! 0 = None.
Proof.
  destruct C10_startQueue_restart as [Hrestart _].
  destruct (Hrestart (Some 2) Session.running "A"%string ["B"%string]
              Session_running_reachable eq_refl)
    as (Hnotes & _ & _ & _ & _ & Hindex & _ & _ & _ & Hold & _).
  split; [reflexivity|]. split; [exact Hnotes|]. split; [exact Hindex|].
  apply Hold. reflexivity.
Defined.

(** ** The index and the end of the queue

    Apart from the failure that settles on a stopped queue (C1, C3), every
    callback keeps [queueIndex] within [runtimeQueue]. *)

Lemma QueueInv_stopped (w w' : World) :
  heap w' = heap w → runtimeQueue (sched w') = runtimeQueue (sched w) →
  queueIndex (sched w') = queueIndex (sched w) → isRunning (sched w') = false →
  is_Some (heap w !! runtimeQueue (sched w)) →
  queueIndex (sched w) ≤ length (queue w) →
  QueueInv w'.
Proof.
  unfold QueueInv, queue. intros -> -> -> -> Hsome Hle. by repeat split.
Qed.

Lemma stopCheckTimer_queue (w : World) :
  heap (_stopCheckTimer w) = heap w
  ∧ runtimeQueue (sched (_stopCheckTimer w)) = runtimeQueue (sched w)
  ∧ queueIndex (sched (_stopCheckTimer w)) = queueIndex (sched w)
  ∧ isRunning (sched (_stopCheckTimer w)) = isRunning (sched w).
Proof. unfold _stopCheckTimer. by case_match. Qed.

Lemma QueueInv_onQueueComplete (w : World) :
  is_Some (heap w !! runtimeQueue (sched w)) →
  queueIndex (sched w) ≤ length (queue w) →
  QueueInv (_onQueueComplete w).
Proof.
  intros Hsome Hle. unfold _onQueueComplete.
  destruct (stopCheckTimer_queue (upd (set_isRunning false) w))
    as (Hh & Hq & Hi & Hr).
  by apply (QueueInv_stopped w).
Qed.

Lemma QueueInv_executeCurrentItem (retry : nat) (w : World) :
  QueueInv w → QueueInv (_executeCurrentItem retry w).
Proof.
  intros Hinv. unfold _executeCurrentItem.
  repeat case_match; try done.
  destruct Hinv as (? & ? & ?). by apply QueueInv_onQueueComplete.
Qed.

Lemma QueueInv_advanceQueue (w : World) :
  QueueInv w → isRunning (sched w) = true → QueueInv (_advanceQueue w).
Proof.
  intros (Hsome & Hle & Hlt) Hr. specialize (Hlt Hr). unfold _advanceQueue.
  set (w1 := upd (set_queueIndex (S (queueIndex (sched w)))) w).
  destruct (Nat.leb_spec (length (queue w1)) (queueIndex (sched w1))) as [_|Hlt1].
  - apply QueueInv_onQueueComplete; [done|]. unfold w1, queue in *; fields. lia.
  - apply QueueInv_executeCurrentItem.
    unfold QueueInv, w1, queue in *; fields. repeat split; [done|lia|done].
Qed.

Lemma QueueInv_settled (retry : nat) (ok : bool) (w : World) :
  QueueInv w →
  (ok = false → MAX_RETRIES - 1 ≤ retry → isRunning (sched w) = true) →
  QueueInv (_executeCurrentItem_settled retry ok w).
Proof.
  intros Hinv Hfresh. unfold _executeCurrentItem_settled.
  destruct ok; [done|]. simpl negb. cbv iota.
  destruct (Nat.ltb_spec retry (MAX_RETRIES - 1)); [done|].
  apply QueueInv_advanceQueue; auto.
Qed.

Lemma QueueInv_checkSilence (stats : Stats) (w : World) :
  QueueInv w → QueueInv (_checkSilence stats w).
Proof.
  intros Hinv. unfold _checkSilence.
  destruct (isRunning (sched w)) eqn:Hr; [|done]. simpl negb. simpl orb.
  destruct (isPaused (sched w)); [done|].
  destruct (currentItemSentAt (sched w)) as [sentAt|]; [|done].
  destruct (sentAt =? 0)%Z; [done|]. destruct (Qltb _ _); [done|].
  destruct (_ && _); destruct (Qgeb _ _); try done;
    by apply QueueInv_advanceQueue.
Qed.

Lemma QueueInv_startQueue (arg : option nat) (w : World) :
  QueueInv w → QueueInv (startQueue arg w).
Proof.
  intros Hinv. destruct (resolveItems arg w) as [|item rest] eqn:Hitems.
  - unfold startQueue. by rewrite Hitems.
  - rewrite (startQueue_nonempty arg w item rest Hitems), startCheckTimer_eq.
    unfold QueueInv, queue; fields. rewrite lookup_insert_eq. simpl.
    repeat split; [done|lia..].
Qed.

Lemma QueueInv_stopInterval (w : World) : QueueInv w → QueueInv (stopInterval w).
Proof. unfold stopInterval. by case_match. Qed.

Lemma QueueInv_fire (e : Event) (w w' : World) :
  QueueInv w → ¬ staleFailure e w → fire e w = Some w' → QueueInv w'.
Proof.
  intros Hinv Hfresh Hfire. destruct e; simpl in Hfire.
  - assert (w' = startQueue arg w) as ->
      by (destruct arg; [case_decide|]; congruence).
    by apply QueueInv_startQueue.
  - simplify_eq. destruct Hinv as (? & ? & ?). unfold stopQueue.
    destruct (stopCheckTimer_queue
                (upd (set_isPaused false) (upd (set_isRunning false) w)))
      as (Hh & Hq & Hi & Hr).
    by apply (QueueInv_stopped w).
  - simplify_eq. unfold pauseQueue. by case_match.
  - simplify_eq. unfold resumeQueue. case_match; [done|].
    by apply QueueInv_executeCurrentItem.
  - simplify_eq. unfold skipPrompt.
    destruct (isRunning (sched w)) eqn:Hr; [|done].
    by apply QueueInv_advanceQueue.
  - simplify_eq. unfold startInterval.
    apply QueueInv_stopInterval in Hinv. by case_match.
  - simplify_eq. by apply QueueInv_stopInterval.
  - simplify_eq. destruct Hinv as (? & ? & ?). unfold stop, stopQueue.
    apply QueueInv_stopInterval.
    destruct (stopCheckTimer_queue
                (upd (set_isPaused false) (upd (set_isRunning false) w)))
      as (Hh & Hq & Hi & Hr).
    by apply (QueueInv_stopped w).
  - case_decide; by simplify_eq.
  - destruct (intervals w !! h) as [[ms [|p]]|]; simplify_eq; [|done].
    by apply QueueInv_checkSilence.
  - destruct (timeouts w !! i); [|done]. case_match; simplify_eq.
    by apply QueueInv_executeCurrentItem.
  - destruct (inflight w !! i) as [p|] eqn:Hp; simplify_eq.
    apply QueueInv_settled; [done|]. intros -> Hlast.
    destruct (isRunning (sched w)) eqn:Hr; [done|].
    exfalso. apply Hfresh. by exists i, p.
  - case_match; by simplify_eq.
  - simplify_eq. destruct Hinv as (Hsome & Hle & Hlt).
    assert (fresh (dom (heap w)) ≠ runtimeQueue (sched w)) as Hne.
    { intros Heq. rewrite <- Heq, fresh_array in Hsome. by destruct Hsome. }
    unfold QueueInv, queue in *; fields.
    by rewrite lookup_insert_ne.
  - case_decide as Hl; simplify_eq. destruct Hl as [_ Hne].
    unfold QueueInv, queue in *; fields.
    by rewrite lookup_insert_ne.
  - by simplify_eq.
Qed.

(** Every run in which no last attempt fails on a stopped queue keeps the
    index within the queue, and below its length while running. *)
Lemma queueIndex_bounded (es : list Event) : ∀ (w w' : World),
  QueueInv w → noStaleFailure es w → run es w = Some w' →
  queueIndex (sched w') ≤ length (queue w')
  ∧ (isRunning (sched w') = true → queueIndex (sched w') < length (queue w')).
Proof.
  induction es as [|e es IH]; intros w w' Hinv Hfresh Hrun; simpl in *.
  - simplify_eq. apply Hinv.
  - destruct Hfresh as [Hfresh Hrest].
    destruct (fire e w) as [w1|] eqn:Hfire; [|done].
    apply (IH w1); eauto using QueueInv_fire.
Qed.

Lemma QueueInv_new (c : Config) (h : gmap nat (list string)) (t : Z) :
  QueueInv (new_Scheduler c h t).
Proof.
  unfold QueueInv, new_Scheduler, queue; fields.
  rewrite lookup_insert_eq. repeat split; [by eexists | done..].
Qed.

Lemma queueIndex_bounded_from_start (c : Config) (h : gmap nat (list string))
    (t : Z) (es : list Event) (w : World) :
  noStaleFailure es (new_Scheduler c h t) →
  run es (new_Scheduler c h t) = Some w →
  queueIndex (sched w) ≤ length (queue w)
  ∧ (isRunning (sched w) = true → queueIndex (sched w) < length (queue w)).
Proof. apply queueIndex_bounded, QueueInv_new. Qed.

(** ** The timer table

    Beyond the claims: both repeating timers, the silence check and the
    interval send, and the handles that refer to them. *)

Lemma TimerTable_QueueStep (w w' : World) :
  TimerTable w → QueueStep w w' → TimerTable w'.
Proof.
  intros (Hlt & Hck & Hiv & Hall & Hrun) (Hnext & Hint & [(Hi & Hc & Hr) | (Hi & Hc & Hr)]).
  - unfold TimerTable. rewrite Hnext, Hint, Hi, Hc, Hr. done.
  - unfold TimerTable, clearedIntervals in *. rewrite Hnext, Hint, Hi, Hc, Hr.
    destruct (checkTimer (sched w)) as [hc|] eqn:Hhc.
    + specialize (Hck hc eq_refl). split_and!.
      * intros h iv [_ Hin]%lookup_delete_Some. eauto.
      * done.
      * intros h Hh. destruct (Hiv h Hh) as (ms & p & Hin & Hp).
        exists ms, p. split; [|done]. rewrite lookup_delete_ne; [done|].
        intros <-. congruence.
      * intros h iv [Hne Hin]%lookup_delete_Some.
        destruct (Hall h iv Hin) as [Hh|Hh]; [congruence | by right].
      * split; [done | by intros [? ?]].
    + by split_and!.
Qed.

Lemma QueueStep_refl (w w' : World) :
  nextTimerId w' = nextTimerId w →
  intervalTimer (sched w') = intervalTimer (sched w) →
  intervals w' = intervals w →
  checkTimer (sched w') = checkTimer (sched w) →
  isRunning (sched w') = isRunning (sched w) →
  QueueStep w w'.
Proof. intros. split; [done|]. split; [done|]. by left. Qed.

Lemma QueueStep_onQueueComplete (w : World) : QueueStep w (_onQueueComplete w).
Proof.
  unfold QueueStep, _onQueueComplete, _stopCheckTimer, clearedIntervals; fields.
  destruct (checkTimer (sched w)) eqn:Hc; fields; split_and!; try done; by right.
Qed.

Lemma QueueStep_executeCurrentItem (retry : nat) (w : World) :
  QueueStep w (_executeCurrentItem retry w).
Proof.
  unfold _executeCurrentItem.
  repeat case_match; try by apply QueueStep_refl.
  apply QueueStep_onQueueComplete.
Qed.

Lemma QueueStep_advanceQueue (w : World) : QueueStep w (_advanceQueue w).
Proof.
  unfold _advanceQueue. case_match.
  - apply (QueueStep_onQueueComplete
             (upd (set_queueIndex (S (queueIndex (sched w)))) w)).
  - apply (QueueStep_executeCurrentItem 0
             (upd (set_queueIndex (S (queueIndex (sched w)))) w)).
Qed.

Lemma QueueStep_settled (retry : nat) (ok : bool) (w : World) :
  QueueStep w (_executeCurrentItem_settled retry ok w).
Proof.
  unfold _executeCurrentItem_settled.
  repeat case_match; try by apply QueueStep_refl.
  apply QueueStep_advanceQueue.
Qed.

Lemma QueueStep_checkSilence (stats : Stats) (w : World) :
  QueueStep w (_checkSilence stats w).
Proof.
  unfold _checkSilence.
  destruct (_ || _); [by apply QueueStep_refl|].
  destruct (currentItemSentAt (sched w)) as [sentAt|]; [|by apply QueueStep_refl].
  destruct (sentAt =? 0)%Z; [by apply QueueStep_refl|].
  destruct (Qltb _ _); [by apply QueueStep_refl|].
  destruct (_ && _); destruct (Qgeb _ _); try by apply QueueStep_refl.
  - apply (QueueStep_advanceQueue (upd (set_lastActivityTime _) w)).
  - apply QueueStep_advanceQueue.
Qed.

Lemma QueueStep_stopQueue (w : World) : QueueStep w (stopQueue w).
Proof.
  unfold QueueStep, stopQueue, _stopCheckTimer, clearedIntervals; fields.
  destruct (checkTimer (sched w)) eqn:Hc; fields; split_and!; try done; by right.
Qed.

Lemma TimerTable_startQueue (arg : option nat) (w : World) :
  TimerTable w → TimerTable (startQueue arg w).
Proof.
  intros Hinv. destruct (resolveItems arg w) as [|item rest] eqn:Hitems.
  { unfold startQueue. by rewrite Hitems. }
  rewrite (startQueue_nonempty arg w item rest Hitems), startCheckTimer_eq.
  destruct Hinv as (Hlt & Hck & Hiv & Hall & Hrun).
  unfold TimerTable; fields. fold (clearedIntervals w).
  assert (Hsub : ∀ h iv, clearedIntervals w !! h = Some iv →
            intervals w !! h = Some iv ∧ checkTimer (sched w) ≠ Some h).
  { unfold clearedIntervals. intros h iv.
    destruct (checkTimer (sched w)) as [hc|]; [|done].
    intros [Hne Hin]%lookup_delete_Some. split; [done | congruence]. }
  split_and!.
  - intros h iv [[<- _] | [_ [Hin _]%Hsub]]%lookup_insert_Some; [lia|].
    apply Hlt in Hin. lia.
  - intros h [= <-]. apply lookup_insert_eq.
  - intros h Hh. destruct (Hiv h Hh) as (ms & p & Hin & Hp).
    exists ms, p. split; [|done].
    rewrite lookup_insert_ne by (apply Hlt in Hin; lia).
    unfold clearedIntervals. destruct (checkTimer (sched w)) as [hc|] eqn:Hhc; [|done].
    rewrite lookup_delete_ne; [done|]. intros <-.
    specialize (Hck hc eq_refl). congruence.
  - intros h iv [[<- _] | [_ [Hin Hne]%Hsub]]%lookup_insert_Some; [by left|].
    destruct (Hall h iv Hin); [done | by right].
  - split; [by eexists | done].
Qed.

Lemma TimerTable_stopInterval (w : World) :
  TimerTable w → TimerTable (stopInterval w).
Proof.
  intros Hinv. unfold stopInterval.
  destruct (intervalTimer (sched w)) as [hi|] eqn:Hhi; [|done].
  destruct Hinv as (Hlt & Hck & Hiv & Hall & Hrun).
  destruct (Hiv hi Hhi) as (ms & p & Hhin & _).
  unfold TimerTable; fields. split_and!.
  - intros h iv [_ Hin]%lookup_delete_Some. eauto.
  - intros h Hh. rewrite lookup_delete_ne; [by apply Hck|].
    intros <-. apply Hck in Hh. congruence.
  - done.
  - intros h iv [Hne Hin]%lookup_delete_Some.
    destruct (Hall h iv Hin); [by left | congruence].
  - exact Hrun.
Qed.

Lemma TimerTable_startInterval (w : World) :
  TimerTable w → TimerTable (startInterval w).
Proof.
  intros Hinv%TimerTable_stopInterval. unfold startInterval.
  assert (Hnone : intervalTimer (sched (stopInterval w)) = None).
  { unfold stopInterval. by case_match. }
  set (w1 := stopInterval w) in *.
  destruct (String.eqb_spec (intervalPrompt (config (sched w1))) ""); [done|].
  destruct Hinv as (Hlt & Hck & Hiv & Hall & Hrun).
  unfold TimerTable; fields. split_and!.
  - intros h iv [[<- _] | [_ Hin]]%lookup_insert_Some; [lia|].
    apply Hlt in Hin. lia.
  - intros h Hh. specialize (Hck h Hh).
    rewrite lookup_insert_ne; [done|]. apply Hlt in Hck. lia.
  - intros h [= <-]. eexists _, _. split; [apply lookup_insert_eq | done].
  - intros h iv [[<- _] | [_ Hin]]%lookup_insert_Some; [by right|].
    destruct (Hall h iv Hin); [by left | congruence].
  - exact Hrun.
Qed.

Lemma TimerTable_fire (e : Event) (w w' : World) :
  TimerTable w → fire e w = Some w' → TimerTable w'.
Proof.
  intros Hinv Hfire. destruct e; simpl in Hfire.
  - assert (w' = startQueue arg w) as ->
      by (destruct arg; [case_decide|]; congruence).
    by apply TimerTable_startQueue.
  - simplify_eq. eauto using TimerTable_QueueStep, QueueStep_stopQueue.
  - simplify_eq. unfold pauseQueue. by case_match.
  - simplify_eq. unfold resumeQueue. case_match; [done|].
    apply (TimerTable_QueueStep w); [done|].
    apply (QueueStep_executeCurrentItem 0 (upd (set_isPaused false) w)).
  - simplify_eq. unfold skipPrompt. case_match; [done|].
    eauto using TimerTable_QueueStep, QueueStep_advanceQueue.
  - simplify_eq. by apply TimerTable_startInterval.
  - simplify_eq. by apply TimerTable_stopInterval.
  - simplify_eq. unfold stop. apply TimerTable_stopInterval.
    eauto using TimerTable_QueueStep, QueueStep_stopQueue.
  - case_decide; by simplify_eq.
  - destruct (intervals w !! h) as [[ms [|p]]|]; simplify_eq; [|done].
    eauto using TimerTable_QueueStep, QueueStep_checkSilence.
  - destruct (timeouts w !! i) as [t|]; [|done]. case_match; simplify_eq.
    apply (TimerTable_QueueStep w); [done|].
    apply (QueueStep_executeCurrentItem (retryCount t)
             (set_timeouts (delete i (timeouts w)) w)).
  - destruct (inflight w !! i) as [p|]; simplify_eq.
    apply (TimerTable_QueueStep w); [done|].
    apply (QueueStep_settled (pendingRetry p) success
             (set_inflight (delete i (inflight w)) w)).
  - case_match; by simplify_eq.
  - by simplify_eq.
  - case_decide; by simplify_eq.
  - by simplify_eq.
Qed.

Lemma TimerTable_reachable (w : World) : reachable w → TimerTable w.
Proof.
  apply reachable_invariant; [|intros e w1 w2; apply TimerTable_fire].
  intros c h t. unfold TimerTable, new_Scheduler; fields.
  split_and!; try done;
    try (intros h' iv Hin; by rewrite lookup_empty in Hin).
Qed.

(** X1: in every reachable state the handles and the timer table agree.
    [checkTimer] refers to an active silence check with a period of 5000 ms,
    [intervalTimer] to an active interval send of a non-empty prompt, every
    active repeating timer is one of these two, and so at most two are
    active. *)
Theorem timers_are_the_referenced_ones (w : World) :
  reachable w →
  (∀ h, checkTimer (sched w) = Some h →
        intervals w !! h = Some (mkInterval 5000%float CheckSilenceCb))
  ∧ (∀ h, intervalTimer (sched w) = Some h →
          ∃ ms p, intervals w !! h = Some (mkInterval ms (IntervalSendCb p))
                  ∧ p ≠ ""%string)
  ∧ (∀ h iv, intervals w !! h = Some iv →
             checkTimer (sched w) = Some h ∨ intervalTimer (sched w) = Some h)
  ∧ size (intervals w) ≤ 2.
Proof.
  intros (Hlt & Hck & Hiv & Hall & Hrun)%TimerTable_reachable.
  split_and!; try done.
  rewrite <- size_dom.
  set (refs := (match checkTimer (sched w) with Some h => {[h]} | None => ∅ end)
               ∪ (match intervalTimer (sched w) with Some h => {[h]} | None => ∅ end)
               : gset nat).
  assert (Hsub : dom (intervals w) ⊆ refs).
  { clear -Hall. intros h [iv Hin]%elem_of_dom. subst refs.
    destruct (Hall h iv Hin) as [Hh | Hh]; rewrite Hh; set_solver. }
  etrans; [apply (subseteq_size _ _ Hsub)|].
  subst refs. rewrite size_union_alt.
  match goal with
  | |- size ?X + size (?Y ∖ ?X) ≤ 2 =>
      assert (size (Y ∖ X) ≤ size Y) by (apply subseteq_size, subseteq_difference_l; done);
      assert (size X ≤ 1)
        by (destruct (checkTimer (sched w));
            rewrite ?size_singleton, ?size_empty; lia);
      assert (size Y ≤ 1)
        by (destruct (intervalTimer (sched w));
            rewrite ?size_singleton, ?size_empty; lia)
  end.
  lia.
Qed.

(** X2: a silence check is active exactly while the queue is running: in
    every reachable state [isRunning] holds iff [checkTimer] is set, and iff
    some silence-check timer is active.  Completion and [stopQueue] leave no
    silence check behind, and nothing cancels it during a run. *)
Theorem silence_check_active_iff_running (w : World) :
  reachable w →
  (isRunning (sched w) = true ↔ is_Some (checkTimer (sched w)))
  ∧ (isRunning (sched w) = true ↔ ∃ h, isCheckTimer w h).
Proof.
  intros (Hlt & Hck & Hiv & Hall & Hrun)%TimerTable_reachable.
  split; [done|]. rewrite Hrun. split.
  - intros [h Hh]. exists h. eexists. split; [by apply Hck | done].
  - intros (h & iv & Hin & Hcb). exists h.
    destruct (Hall h iv Hin) as [Hh|Hh]; [done|].
    destruct (Hiv h Hh) as (ms & p & Hin' & _).
    rewrite Hin in Hin'. by simplify_eq.
Qed.

(** X3: [stop()] in any reachable state leaves no repeating timer active,
    neither the silence check nor the interval send, clears both handles
    and both flags, and keeps the queue, its index and the notifications. *)
Theorem stop_clears_every_timer (w : World) :
  reachable w →
  intervals (stop w) = ∅
  ∧ checkTimer (sched (stop w)) = None
  ∧ intervalTimer (sched (stop w)) = None
  ∧ isRunning (sched (stop w)) = false
  ∧ isPaused (sched (stop w)) = false
  ∧ queueIndex (sched (stop w)) = queueIndex (sched w)
  ∧ queue (stop w) = queue w
  ∧ notes (stop w) = notes w
  ∧ sent (stop w) = sent w.
Proof.
  intros Hreach.
  assert (Hinv : TimerTable (stop w)).
  { apply (TimerTable_fire Stop w); [by apply TimerTable_reachable | done]. }
  assert (Hfields :
    checkTimer (sched (stop w)) = None
    ∧ intervalTimer (sched (stop w)) = None
    ∧ isRunning (sched (stop w)) = false
    ∧ isPaused (sched (stop w)) = false
    ∧ queueIndex (sched (stop w)) = queueIndex (sched w)
    ∧ queue (stop w) = queue w
    ∧ notes (stop w) = notes w
    ∧ sent (stop w) = sent w).
  { clear. unfold stop, stopInterval, stopQueue, _stopCheckTimer, queue. fields.
    destruct (checkTimer (sched w)) eqn:Hc; fields;
      destruct (intervalTimer (sched w)) eqn:Hi; fields; done. }
  split; [|done]. destruct Hfields as (Hc & Hi & _).
  destruct Hinv as (_ & _ & _ & Hall & _).
  apply map_empty. intros h.
  destruct (intervals (stop w) !! h) as [iv|] eqn:Hin; [|done].
  destruct (Hall h iv Hin); congruence.
Qed.

Lemma interval_timer_kept (w w' : World) (h : nat) (iv : Interval) :
  TimerTable w → QueueStep w w' →
  intervalTimer (sched w) = Some h → intervals w !! h = Some iv →
  intervalTimer (sched w') = Some h ∧ intervals w' !! h = Some iv.
Proof.
  intros (_ & Hck & Hiv & _) (_ & Hint & [(Hi & _) | (Hi & _)]) Hh Hin;
    rewrite Hint, Hi; [done|].
  split; [done|]. unfold clearedIntervals.
  destruct (checkTimer (sched w)) as [hc|] eqn:Hhc; [|done].
  rewrite lookup_delete_ne; [done|]. intros <-.
  destruct (Hiv hc Hh) as (ms & p & Hin' & _). specialize (Hck hc eq_refl).
  congruence.
Qed.

(** X4: the interval repeater is independent of the queue.  In a reachable
    state, no event other than [startInterval], [stopInterval] and [stop]
    (so neither starting, stopping, pausing, skipping or completing the
    queue, nor a reload, a retry, a silence check or a settled send) changes
    [intervalTimer] or the period and prompt its timer was created with. *)
Theorem interval_timer_survives_queue_events (e : Event) (w w' : World)
    (h : nat) (iv : Interval) :
  reachable w →
  isIntervalCommand e = false →
  fire e w = Some w' →
  intervalTimer (sched w) = Some h → intervals w !! h = Some iv →
  intervalTimer (sched w') = Some h ∧ intervals w' !! h = Some iv.
Proof.
  intros Hinv%TimerTable_reachable Hcmd Hfire Hh Hin.
  destruct e; simpl in Hfire; try discriminate Hcmd.
  - assert (w' = startQueue arg w) as ->
      by (destruct arg; [case_decide|]; congruence).
    destruct (resolveItems arg w) as [|item rest] eqn:Hitems.
    { unfold startQueue. by rewrite Hitems. }
    rewrite (startQueue_nonempty arg w item rest Hitems), startCheckTimer_eq.
    fields. split; [done|].
    destruct Hinv as (Hlt & Hck & Hiv & _).
    rewrite lookup_insert_ne by (apply Hlt in Hin; lia).
    destruct (checkTimer (sched w)) as [hc|] eqn:Hhc; [|done].
    rewrite lookup_delete_ne; [done|]. intros <-.
    destruct (Hiv hc Hh) as (ms & p & Hin' & _). specialize (Hck hc eq_refl).
    congruence.
  - simplify_eq. eauto using interval_timer_kept, QueueStep_stopQueue.
  - simplify_eq. unfold pauseQueue. by case_match.
  - simplify_eq. unfold resumeQueue. case_match; [done|].
    apply (interval_timer_kept w); try done.
    apply (QueueStep_executeCurrentItem 0 (upd (set_isPaused false) w)).
  - simplify_eq. unfold skipPrompt. case_match; [done|].
    eauto using interval_timer_kept, QueueStep_advanceQueue.
  - case_decide; by simplify_eq.
  - destruct (intervals w !! h0) as [[ms [|p]]|]; simplify_eq; [|done].
    eauto using interval_timer_kept, QueueStep_checkSilence.
  - destruct (timeouts w !! i) as [t|]; [|done]. case_match; simplify_eq.
    apply (interval_timer_kept w); try done.
    apply (QueueStep_executeCurrentItem (retryCount t)
             (set_timeouts (delete i (timeouts w)) w)).
  - destruct (inflight w !! i) as [p|]; simplify_eq.
    apply (interval_timer_kept w); try done.
    apply (QueueStep_settled (pendingRetry p) success
             (set_inflight (delete i (inflight w)) w)).
  - case_match; by simplify_eq.
  - by simplify_eq.
  - case_decide; by simplify_eq.
  - by simplify_eq.
Qed.

(** ** The interval repeater *)

Lemma no_interval_send_without_handle (w : World) :
  TimerTable w → intervalTimer (sched w) = None →
  ∀ h, ¬ isIntervalSendTimer w h.
Proof.
  intros (_ & Hck & _ & Hall & _) Hnone h (ms & p & Hin).
  destruct (Hall h _ Hin) as [Hh|Hh]; [|congruence].
  apply Hck in Hh. congruence.
Qed.

Lemma one_interval_send (w : World) (h h' : nat) :
  TimerTable w → intervalTimer (sched w) = Some h →
  isIntervalSendTimer w h' → h' = h.
Proof.
  intros (_ & Hck & _ & Hall & _) Hh (ms & p & Hin).
  destruct (Hall h' _ Hin) as [Hh'|Hh']; [|congruence].
  apply Hck in Hh'. congruence.
Qed.

(** X5: [startInterval] in a reachable state.  It changes nothing on the
    queue side and leaves the silence check running.  The timer
    [intervalTimer] referred to is cancelled.  With an empty [intervalPrompt]
    no timer is created and none that sends is left; otherwise exactly one
    interval-send timer is active afterwards, created with the configured
    prompt and with the period [intervalMinutes * 60 * 1000] as double
    arithmetic gives it, each product rounded. *)
Theorem startInterval_replaces_the_timer (w : World) :
  reachable w →
  queueSide (startInterval w) = queueSide w
  ∧ (∀ h, checkTimer (sched w) = Some h →
          intervals (startInterval w) !! h
          = Some (mkInterval 5000%float CheckSilenceCb))
  ∧ (∀ h, intervalTimer (sched w) = Some h →
          intervals (startInterval w) !! h = None)
  ∧ (intervalPrompt (config (sched w)) = ""%string →
     intervalTimer (sched (startInterval w)) = None
     ∧ ∀ h, ¬ isIntervalSendTimer (startInterval w) h)
  ∧ (intervalPrompt (config (sched w)) ≠ ""%string →
     ∃ h, intervalTimer (sched (startInterval w)) = Some h
          ∧ intervals (startInterval w) !! h
            = Some (mkInterval
                      (intervalMinutes (config (sched w)) * 60 * 1000)%float
                      (IntervalSendCb (intervalPrompt (config (sched w)))))
          ∧ ∀ h', isIntervalSendTimer (startInterval w) h' → h' = h).
Proof.
  intros Hinv%TimerTable_reachable.
  pose proof (TimerTable_startInterval w Hinv) as Hinv'.
  pose proof (TimerTable_stopInterval w Hinv) as Hinv1.
  destruct Hinv as (Hlt & Hck & Hiv & Hall & Hrun).
  assert (Hnone : intervalTimer (sched (stopInterval w)) = None).
  { unfold stopInterval. by case_match. }
  assert (Hside : queueSide (stopInterval w) = queueSide w).
  { unfold stopInterval. by case_match. }
  assert (Hcfg : config (sched (stopInterval w)) = config (sched w))
    by apply stopInterval_config.
  assert (Hnext : nextTimerId (stopInterval w) = nextTimerId w).
  { unfold stopInterval. by case_match. }
  assert (Hkept : ∀ h, checkTimer (sched w) = Some h →
            intervals (stopInterval w) !! h
            = Some (mkInterval 5000%float CheckSilenceCb)).
  { intros h Hh. destruct Hinv1 as (_ & Hck1 & _). apply Hck1.
    unfold stopInterval. by case_match. }
  assert (Hgone : ∀ h, intervalTimer (sched w) = Some h →
            intervals (stopInterval w) !! h = None).
  { intros h Hh. unfold stopInterval. rewrite Hh. fields. apply lookup_delete_eq. }
  revert Hinv'. unfold startInterval. rewrite Hcfg.
  destruct (String.eqb_spec (intervalPrompt (config (sched w))) "") as [Hempty|Hfull];
    intros Hinv'.
  - split_and!; try done. intros _. split; [done|].
    by apply no_interval_send_without_handle.
  - fields. split_and!; try done.
    + intros h Hh. rewrite lookup_insert_ne; [by apply Hkept|].
      rewrite Hnext. apply Hck, Hlt in Hh. lia.
    + intros h Hh. rewrite lookup_insert_ne; [by apply Hgone|].
      rewrite Hnext. destruct (Hiv h Hh) as (ms & p & Hin & _).
      apply Hlt in Hin. lia.
    + intros _. eexists. split; [done|]. split; [apply lookup_insert_eq|].
      intros h' Hh'. by apply (one_interval_send _ _ _ Hinv').
Qed.

(** X6: [stopInterval] in a reachable state cancels the interval send and
    nothing else: no timer that sends is left, the queue side and the silence
    check are as before, and a second [stopInterval] changes nothing. *)
Theorem stopInterval_cancels_only_the_interval (w : World) :
  reachable w →
  queueSide (stopInterval w) = queueSide w
  ∧ intervalTimer (sched (stopInterval w)) = None
  ∧ (∀ h, ¬ isIntervalSendTimer (stopInterval w) h)
  ∧ (∀ h, checkTimer (sched w) = Some h →
          intervals (stopInterval w) !! h
          = Some (mkInterval 5000%float CheckSilenceCb))
  ∧ stopInterval (stopInterval w) = stopInterval w.
Proof.
  intros Hinv%TimerTable_reachable.
  pose proof (TimerTable_stopInterval w Hinv) as Hinv1.
  assert (Hnone : intervalTimer (sched (stopInterval w)) = None).
  { unfold stopInterval. by case_match. }
  split_and!.
  - unfold stopInterval. by case_match.
  - done.
  - by apply no_interval_send_without_handle.
  - intros h Hh. destruct Hinv1 as (_ & Hck1 & _). apply Hck1.
    unfold stopInterval. by case_match.
  - unfold stopInterval at 1. by rewrite Hnone.
Qed.

(** ** Commands, once more *)

Lemma onQueueComplete_isPaused (w : World) :
  isPaused (sched (_onQueueComplete w)) = isPaused (sched w).
Proof.
  unfold _onQueueComplete, _stopCheckTimer; fields.
  by destruct (checkTimer (sched w)).
Qed.

Lemma executeCurrentItem_isPaused (retry : nat) (w : World) :
  isPaused (sched (_executeCurrentItem retry w)) = isPaused (sched w).
Proof.
  unfold _executeCurrentItem.
  repeat case_match; try done. apply onQueueComplete_isPaused.
Qed.

Lemma stopCheckTimer_idempotent (w : World) :
  _stopCheckTimer (_stopCheckTimer w) = _stopCheckTimer w.
Proof.
  unfold _stopCheckTimer at 1. by rewrite stopCheckTimer_checkTimer.
Qed.

(** X7: repeating a command changes nothing more.  A second [pauseQueue],
    [resumeQueue], [stopQueue] or [stop] leaves the world as the first one
    left it; in particular resuming twice sends the current item once. *)
Theorem commands_are_idempotent (w : World) :
  pauseQueue (pauseQueue w) = pauseQueue w
  ∧ resumeQueue (resumeQueue w) = resumeQueue w
  ∧ stopQueue (stopQueue w) = stopQueue w
  ∧ stop (stop w) = stop w.
Proof.
  split_and!.
  - unfold pauseQueue. destruct (isRunning (sched w)) eqn:Hr; fields.
    + by rewrite Hr.
    + by rewrite Hr.
  - assert (Hnoop : ∀ x, isPaused (sched x) = false → resumeQueue x = x).
    { intros x Hx. unfold resumeQueue. rewrite Hx. by rewrite orb_true_r. }
    destruct (negb (isRunning (sched w)) || negb (isPaused (sched w))) eqn:Hg.
    + assert (resumeQueue w = w) as Hw by (unfold resumeQueue; by rewrite Hg).
      by rewrite !Hw.
    + assert (resumeQueue w = _executeCurrentItem 0 (upd (set_isPaused false) w))
        as -> by (unfold resumeQueue; by rewrite Hg).
      apply Hnoop. by rewrite executeCurrentItem_isPaused.
  - unfold stopQueue, _stopCheckTimer; fields.
    destruct (checkTimer (sched w)) eqn:Hc; fields; [done|]. by rewrite Hc.
  - unfold stop, stopInterval, stopQueue, _stopCheckTimer; fields.
    destruct (checkTimer (sched w)) eqn:Hc; fields;
      destruct (intervalTimer (sched w)) eqn:Hi; fields;
      rewrite ?Hc, ?Hi; fields; rewrite ?Hc, ?Hi; done.
Qed.

(** X8: skipping while paused moves the index without sending, and the
    following [resumeQueue] sends the new current item once, with a fresh
    retry counter and a fresh time stamp. *)
Theorem skip_while_paused_then_resume (w : World) (next : string) :
  isRunning (sched w) = true → isPaused (sched w) = false →
  queue w !! S (queueIndex (sched w)) = Some next →
  skipPrompt (pauseQueue w)
  = upd (set_queueIndex (S (queueIndex (sched w)))) (upd (set_isPaused true) w)
  ∧ sent (skipPrompt (pauseQueue w)) = sent w
  ∧ inflight (skipPrompt (pauseQueue w)) = inflight w
  ∧ sent (resumeQueue (skipPrompt (pauseQueue w))) = sent w ++ [next]
  ∧ inflight (resumeQueue (skipPrompt (pauseQueue w)))
    = inflight w ++ [mkPending next 0]
  ∧ queueIndex (sched (resumeQueue (skipPrompt (pauseQueue w))))
    = S (queueIndex (sched w))
  ∧ isPaused (sched (resumeQueue (skipPrompt (pauseQueue w)))) = false
  ∧ currentItemSentAt (sched (resumeQueue (skipPrompt (pauseQueue w))))
    = Some (now w).
Proof.
  intros Hr Hp Hnext.
  assert (Hskip : skipPrompt (pauseQueue w)
    = upd (set_queueIndex (S (queueIndex (sched w)))) (upd (set_isPaused true) w)).
  { unfold pauseQueue. rewrite Hr. simpl negb. cbv iota.
    unfold skipPrompt; fields. rewrite Hr. simpl negb. cbv iota.
    unfold _advanceQueue, queue; fields. fold (queue w).
    pose proof (lookup_lt_Some _ _ _ Hnext) as Hlt.
    destruct (Nat.leb_spec (length (queue w)) (S (queueIndex (sched w)))); [lia|].
    by apply executeCurrentItem_paused. }
  rewrite Hskip. split; [done|]. split; [done|]. split; [done|].
  unfold resumeQueue; fields. rewrite Hr. simpl negb. simpl orb. cbv iota.
  rewrite (executeCurrentItem_sends 0 _ next) by done.
  by split_and!.
Qed.

Lemma checkSilence_within_grace (stats : Stats) (w : World) (sentAt : Z) :
  currentItemSentAt (sched w) = Some sentAt →
  (now w - sentAt < 10000)%Z →
  _checkSilence stats w = w.
Proof.
  intros Hs Hgrace. unfold _checkSilence. rewrite Hs.
  destruct (_ || _); [done|]. destruct (sentAt =? 0)%Z; [done|].
  destruct (Qltb _ _) eqn:Hq; [done|].
  apply Qltb_false, millis_ge in Hq. lia.
Qed.

Lemma checkSilence_idle (stats : Stats) (w : World) :
  isRunning (sched w) = false ∨ isPaused (sched w) = true →
  _checkSilence stats w = w.
Proof.
  intros [H|H]; unfold _checkSilence; rewrite H; [done|].
  by rewrite orb_true_r.
Qed.

Lemma onQueueComplete_isRunning (w : World) :
  isRunning (sched (_onQueueComplete w)) = false.
Proof.
  unfold _onQueueComplete, _stopCheckTimer; fields.
  by destruct (checkTimer (sched w)).
Qed.

(** X9: every send attempt, a retry as much as a first attempt, restarts
    the grace period: a silence check that comes less than 10 seconds after
    [_executeCurrentItem] changes nothing, whatever the sample and the
    configured timeout.  The same holds after [resumeQueue] of a paused queue
    and after [startQueue] with something to run. *)
Theorem every_attempt_restarts_the_grace_period (stats : Stats) (w : World) (d : Z) :
  (d < 10000)%Z →
  (∀ retry,
     _checkSilence stats (set_now (now w + d) (_executeCurrentItem retry w))
     = set_now (now w + d) (_executeCurrentItem retry w))
  ∧ (isPaused (sched w) = true →
     _checkSilence stats (set_now (now w + d) (resumeQueue w))
     = set_now (now w + d) (resumeQueue w))
  ∧ (∀ arg, resolveItems arg w ≠ [] →
     _checkSilence stats (set_now (now w + d) (startQueue arg w))
     = set_now (now w + d) (startQueue arg w)).
Proof.
  intros Hd.
  assert (Hexec : ∀ retry w0, now w0 = now w →
    _checkSilence stats (set_now (now w + d) (_executeCurrentItem retry w0))
    = set_now (now w + d) (_executeCurrentItem retry w0)).
  { intros retry w0 Hnow. unfold _executeCurrentItem.
    destruct (negb (isRunning (sched w0)) || isPaused (sched w0)) eqn:Hg.
    { apply checkSilence_idle; fields.
      destruct (isRunning (sched w0)); [right|left]; [|done].
      by destruct (isPaused (sched w0)). }
    destruct (Nat.leb_spec (length (queue w0)) (queueIndex (sched w0))) as [|Hlt].
    { apply checkSilence_idle. left. apply onQueueComplete_isRunning. }
    destruct (lookup_lt_is_Some_2 _ _ Hlt) as [item ->].
    apply (checkSilence_within_grace _ _ (now w0)); [done|]. fields. lia. }
  split_and!.
  - intros retry. by apply Hexec.
  - intros Hp. unfold resumeQueue. rewrite Hp.
    destruct (isRunning (sched w)) eqn:Hr; simpl negb; simpl orb; cbv iota.
    + by apply (Hexec 0 (upd (set_isPaused false) w)).
    + apply checkSilence_idle. by left.
  - intros arg Hitems.
    destruct (resolveItems arg w) as [|item rest] eqn:Heq; [done|].
    rewrite (startQueue_nonempty arg w item rest Heq), startCheckTimer_eq.
    apply (checkSilence_within_grace _ _ (now w)); [done|]. fields. lia.
Qed.

(** ** Activity and silence *)

Lemma millis_le (a b : Z) : ((a # 1000) <= (b # 1000))%Q ↔ (a <= b)%Z.
Proof. unfold Qle; simpl. lia. Qed.

(** X10: activity postpones completion.  If the sample's newer stamp,
    [max(lastActivity, lastDomChange)], is not zero and less than
    [silenceTimeout] seconds old, the silence check does not advance: index,
    running flag, sends and notifications are as before.  Past the grace
    period the watermark becomes the larger of its old value and that
    stamp. *)
Theorem recent_activity_keeps_the_item (stats : Stats) (w : World) :
  Z.max (orZero (lastActivity stats)) (orZero (lastDomChange stats)) ≠ 0%Z →
  ((now w - Z.max (orZero (lastActivity stats)) (orZero (lastDomChange stats))) # 1000
   < silenceTimeout (config (sched w)))%Q →
  queueIndex (sched (_checkSilence stats w)) = queueIndex (sched w)
  ∧ isRunning (sched (_checkSilence stats w)) = isRunning (sched w)
  ∧ sent (_checkSilence stats w) = sent w
  ∧ notes (_checkSilence stats w) = notes w
  ∧ (∀ sentAt,
       isRunning (sched w) = true → isPaused (sched w) = false →
       currentItemSentAt (sched w) = Some sentAt → sentAt ≠ 0%Z →
       (10000 <= now w - sentAt)%Z →
       watermark (_checkSilence stats w)
       = Z.max (watermark w)
           (Z.max (orZero (lastActivity stats)) (orZero (lastDomChange stats)))).
Proof.
  set (latest := Z.max (orZero (lastActivity stats)) (orZero (lastDomChange stats))).
  intros Hlatest Hrecent.
  assert (Hmain :
    isRunning (sched w) = true → isPaused (sched w) = false →
    ∀ sentAt, currentItemSentAt (sched w) = Some sentAt → sentAt ≠ 0%Z →
    (10000 <= now w - sentAt)%Z →
    _checkSilence stats w
    = if (toNumber (lastActivityTime (sched w)) <? latest)%Z
      then upd (set_lastActivityTime (Some latest)) w else w).
  { intros Hr Hp sentAt Hs Hne Hgrace. unfold _checkSilence.
    rewrite Hr, Hp, Hs. simpl negb. simpl orb. cbv iota.
    destruct (Z.eqb_spec sentAt 0); [done|].
    destruct (Qltb _ _) eqn:Hq.
    { apply Qltb_true, millis_lt in Hq. lia. }
    fold latest. destruct (Z.eqb_spec latest 0); [done|]. simpl negb. simpl andb.
    destruct (Z.ltb_spec (toNumber (lastActivityTime (sched w))) latest) as [Hlt|Hge];
      fields.
    - destruct (Qgeb _ _) eqn:Hsil; [|done].
      apply Qgeb_true in Hsil. exfalso.
      apply (Qlt_not_le _ _ Hrecent). exact Hsil.
    - destruct (Qgeb _ _) eqn:Hsil; [|done].
      apply Qgeb_true in Hsil. exfalso.
      apply (Qlt_not_le _ _ Hrecent).
      eapply Qle_trans; [exact Hsil|]. apply millis_le. lia. }
  assert (Hcases :
    _checkSilence stats w = w
    ∨ _checkSilence stats w = upd (set_lastActivityTime (Some latest)) w).
  { unfold _checkSilence at 1 2.
    destruct (isRunning (sched w)) eqn:Hr; [|by left].
    destruct (isPaused (sched w)) eqn:Hp; [by left|]. simpl negb. simpl orb. cbv iota.
    destruct (currentItemSentAt (sched w)) as [sentAt|] eqn:Hs; [|by left].
    destruct (Z.eqb_spec sentAt 0); [by left|].
    destruct (Qltb _ _) eqn:Hq; [by left|].
    apply Qltb_false, millis_ge in Hq.
    pose proof (Hmain eq_refl eq_refl sentAt eq_refl n Hq) as Heq.
    unfold _checkSilence in Heq. rewrite Hr, Hp, Hs in Heq.
    simpl negb in Heq. simpl orb in Heq. cbv iota in Heq.
    destruct (Z.eqb_spec sentAt 0) in Heq; [done|].
    destruct (Qltb _ _) eqn:Hq' in Heq.
    { apply Qltb_true, millis_lt in Hq'. lia. }
    rewrite Heq. destruct (_ <? _)%Z; [by right | by left]. }
  split_and!; try (by destruct Hcases as [-> | ->]).
  intros sentAt Hr Hp Hs Hne Hgrace.
  rewrite (Hmain Hr Hp sentAt Hs Hne Hgrace). unfold watermark.
  destruct (Z.ltb_spec (toNumber (lastActivityTime (sched w))) latest); simpl; lia.
Qed.

(** ** Going through the whole queue *)

Lemma onQueueComplete_facts (w : World) :
  isRunning (sched (_onQueueComplete w)) = false
  ∧ checkTimer (sched (_onQueueComplete w)) = None
  ∧ queueIndex (sched (_onQueueComplete w)) = queueIndex (sched w)
  ∧ queue (_onQueueComplete w) = queue w
  ∧ sent (_onQueueComplete w) = sent w
  ∧ notes (_onQueueComplete w) = notes w ++ [CompletionInfo (length (queue w))].
Proof.
  unfold _onQueueComplete, _stopCheckTimer, queue; fields.
  by destruct (checkTimer (sched w)) eqn:Hc.
Qed.

Lemma advanceQueue_next (w : World) (next : string) :
  isRunning (sched w) = true → isPaused (sched w) = false →
  queue w !! S (queueIndex (sched w)) = Some next →
  _advanceQueue w
  = set_inflight (inflight w ++ [mkPending next 0])
      (set_sent (sent w ++ [next])
         (upd (set_lastActivityTime (Some (now w + Z.of_N (readGap w))%Z))
            (set_now (now w + Z.of_N (readGap w))
               (upd (set_currentItemSentAt (Some (now w)))
                  (upd (set_queueIndex (S (queueIndex (sched w)))) w))))).
Proof.
  intros Hr Hp Hnext. unfold _advanceQueue.
  set (w1 := upd (set_queueIndex (S (queueIndex (sched w)))) w).
  change (queue w1) with (queue w).
  change (queueIndex (sched w1)) with (S (queueIndex (sched w))).
  pose proof (lookup_lt_Some _ _ _ Hnext).
  destruct (Nat.leb_spec (length (queue w)) (S (queueIndex (sched w)))); [lia|].
  by rewrite (executeCurrentItem_sends 0 w1 next).
Qed.

Lemma advanceQueue_last (w : World) :
  length (queue w) ≤ S (queueIndex (sched w)) →
  _advanceQueue w
  = _onQueueComplete (upd (set_queueIndex (S (queueIndex (sched w)))) w).
Proof.
  intros Hlast. unfold _advanceQueue.
  set (w1 := upd (set_queueIndex (S (queueIndex (sched w)))) w).
  change (queue w1) with (queue w).
  change (queueIndex (sched w1)) with (S (queueIndex (sched w))).
  by destruct (Nat.leb_spec (length (queue w)) (S (queueIndex (sched w)))); [|lia].
Qed.

(** X11: going through the queue with [skipPrompt].  After [startQueue]
    with the items [items] and [k] skips, as long as [k] is below the number
    of items the queue is running at index [k] and the first [k + 1] items
    have each been sent once, in order, with nothing notified.  From
    [length items] skips on the queue is complete: not running, the silence
    check cancelled, every item sent exactly once, and one completion
    notification carrying the number of items; further skips change
    nothing. *)
Theorem skipping_through_the_queue (arg : option nat) (w : World)
    (items : list string) (k : nat) :
  resolveItems arg w = items → items ≠ [] →
  (k < length items →
   isRunning (sched (Nat.iter k skipPrompt (startQueue arg w))) = true
   ∧ isPaused (sched (Nat.iter k skipPrompt (startQueue arg w))) = false
   ∧ queueIndex (sched (Nat.iter k skipPrompt (startQueue arg w))) = k
   ∧ queue (Nat.iter k skipPrompt (startQueue arg w)) = items
   ∧ sent (Nat.iter k skipPrompt (startQueue arg w)) = sent w ++ take (S k) items
   ∧ notes (Nat.iter k skipPrompt (startQueue arg w)) = notes w)
  ∧ (length items ≤ k →
     isRunning (sched (Nat.iter k skipPrompt (startQueue arg w))) = false
     ∧ checkTimer (sched (Nat.iter k skipPrompt (startQueue arg w))) = None
     ∧ queueIndex (sched (Nat.iter k skipPrompt (startQueue arg w))) = length items
     ∧ queue (Nat.iter k skipPrompt (startQueue arg w)) = items
     ∧ sent (Nat.iter k skipPrompt (startQueue arg w)) = sent w ++ items
     ∧ notes (Nat.iter k skipPrompt (startQueue arg w))
       = notes w ++ [CompletionInfo (length items)]).
Proof.
  intros Hitems Hne. induction k as [|k [IHrun IHdone]].
  - destruct items as [|item rest]; [done|]. split; [|simpl; lia]. intros _.
    simpl Nat.iter.
    rewrite (startQueue_nonempty arg w item rest Hitems), startCheckTimer_eq.
    unfold queue; fields. rewrite lookup_insert_eq. by split_and!.
  - simpl Nat.iter. set (wk := Nat.iter k skipPrompt (startQueue arg w)) in *.
    destruct (decide (k < length items)) as [Hk|Hk].
    + destruct (IHrun Hk) as (Hr & Hp & Hi & Hq & Hs & Hn).
      assert (Hskip : skipPrompt wk = _advanceQueue wk)
        by (unfold skipPrompt; by rewrite Hr).
      rewrite Hskip. split.
      * intros Hlt.
        destruct (lookup_lt_is_Some_2 items (S k) Hlt) as [next Hnext].
        rewrite (advanceQueue_next wk next) by (rewrite ?Hq, ?Hi; done).
        unfold queue in *; fields. rewrite Hi, Hs. split_and!; try done.
        rewrite <- app_assoc. f_equal. symmetry. by apply take_S_r.
      * intros Hge. assert (length items = S k) as Hlen by lia.
        rewrite (advanceQueue_last wk) by (rewrite Hq, Hi; lia).
        destruct (onQueueComplete_facts (upd (set_queueIndex (S (queueIndex (sched wk)))) wk))
          as (-> & -> & -> & -> & -> & ->).
        unfold queue in *; fields. rewrite Hq, Hi, Hs, Hn, Hlen.
        split_and!; try done. f_equal. apply take_ge. lia.
    + split; [lia|]. intros _.
      destruct IHdone as (Hr & Hrest); [lia|].
      assert (Hskip : skipPrompt wk = wk) by (unfold skipPrompt; by rewrite Hr).
      rewrite Hskip. by split.
Qed.

(** ** Callbacks that find the queue stopped or paused *)

(** X12: while the queue is stopped or paused, a retry timer that fires is
    consumed without sending or rescheduling anything, and a silence check
    changes nothing.  On a stopped queue [pauseQueue], [resumeQueue] and
    [skipPrompt] change nothing either. *)
Theorem idle_queue_ignores_timers_and_commands (w : World) :
  isRunning (sched w) = false ∨ isPaused (sched w) = true →
  (∀ i w', fire (TimeoutFire i) w = Some w' →
           w' = set_timeouts (delete i (timeouts w)) w)
  ∧ (∀ h stats w', isCheckTimer w h →
                   fire (IntervalFire h stats) w = Some w' → w' = w)
  ∧ (isRunning (sched w) = false →
     pauseQueue w = w ∧ resumeQueue w = w ∧ skipPrompt w = w).
Proof.
  intros Hidle. split_and!.
  - intros i w' Hfire. simpl in Hfire.
    destruct (timeouts w !! i) as [t|]; [|done]. case_match; simplify_eq.
    destruct Hidle as [Hr|Hp].
    + by apply executeCurrentItem_stopped.
    + by apply executeCurrentItem_paused.
  - intros h stats w' (iv & Hin & Hcb) Hfire. simpl in Hfire.
    rewrite Hin in Hfire. destruct iv as [ms cb]. simpl in Hcb. subst cb.
    simplify_eq. by apply checkSilence_idle.
  - intros Hr. unfold pauseQueue, resumeQueue, skipPrompt. by rewrite Hr.
Qed.

(** [getStatus().prompts] is the scheduler's own [runtimeQueue], not a
    copy: after a write through that reference the queue holds the written
    items, and the next [getStatus] reports their number and takes
    [currentPrompt] from them. *)
Theorem getStatus_prompts_is_the_live_queue (w : World) (items : list string) :
  st_prompts (getStatus w) = runtimeQueue (sched w)
  ∧ queue (set_heap (<[st_prompts (getStatus w) := items]> (heap w)) w) = items
  ∧ st_queueLength
      (getStatus (set_heap (<[st_prompts (getStatus w) := items]> (heap w)) w))
    = length items
  ∧ st_currentPrompt
      (getStatus (set_heap (<[st_prompts (getStatus w) := items]> (heap w)) w))
    = orNull (items !! queueIndex (sched w)).
Proof.
  unfold getStatus, queue; fields. cbn [st_prompts st_queueLength st_currentPrompt].
  by rewrite lookup_insert_eq.
Qed.

(** * The relauncher *)

Section Sanitize.

Import Relauncher.

Lemma sanitize_allowed (p : list Z) :
  Forall (λ c, allowed c = true) (_sanitizePath p).
Proof.
  apply Forall_forall. intros c Hc. by apply list_elem_of_filter in Hc as [? _].
Qed.

Lemma sanitize_fixed (p : list Z) :
  Forall (λ c, allowed c = true) p → _sanitizePath p = p.
Proof.
  unfold _sanitizePath. induction 1 as [|c p Hc _ IH]; [done|].
  by rewrite filter_cons_True, IH.
Qed.

Lemma shellMeta_removed : Forall (λ m, allowed m = false) shellMeta.
Proof. repeat constructor. Qed.

Lemma sanitize_no_meta (p : list Z) :
  Forall (λ c, c ∉ shellMeta) (_sanitizePath p).
Proof.
  eapply Forall_impl; [apply sanitize_allowed|]. intros c Hc Hin.
  pose proof shellMeta_removed as Hmeta. rewrite Forall_forall in Hmeta.
  specialize (Hmeta c Hin). congruence.
Qed.

(** X13: [_sanitizePath] only deletes.  Its result is a subsequence of the
    path, never longer than it, and sanitizing twice gives the same as
    sanitizing once; sanitizing a concatenation is concatenating the
    sanitized parts. *)
Theorem sanitizePath_only_deletes (p q : list Z) :
  sublist (_sanitizePath p) p
  ∧ length (_sanitizePath p) ≤ length p
  ∧ _sanitizePath (_sanitizePath p) = _sanitizePath p
  ∧ _sanitizePath (p ++ q) = _sanitizePath p ++ _sanitizePath q.
Proof.
  split_and!.
  - apply sublist_filter.
  - apply length_filter.
  - apply sanitize_fixed, sanitize_allowed.
  - apply filter_app.
Qed.


(** X15: a path is left as it is exactly when all its characters are in the
    permitted class.  That class contains every white space character, so
    line feeds and carriage returns in a path are kept. *)
Theorem sanitizePath_keeps_permitted_paths (p q : list Z) :
  (_sanitizePath p = p ↔ Forall (λ c, allowed c = true) p)
  ∧ (∀ c, isSpace c = true → allowed c = true)
  ∧ _sanitizePath (p ++ [10%Z] ++ q) = _sanitizePath p ++ [10%Z] ++ _sanitizePath q
  ∧ _sanitizePath (p ++ [13%Z] ++ q) = _sanitizePath p ++ [13%Z] ++ _sanitizePath q.
Proof.
  split_and!.
  - split; [|apply sanitize_fixed]. intros <-. apply sanitize_allowed.
  - intros c Hc. unfold allowed. rewrite Hc. by rewrite !orb_true_r.
  - unfold _sanitizePath. by rewrite !filter_app.
  - unfold _sanitizePath. by rewrite !filter_app.
Qed.

End Sanitize.

Section HasFlag.

Import Relauncher.

(** [pat] occurs in [s]. *)
Let occurs (pat s : list Z) : Prop := ∃ l r, s = l ++ pat ++ r.

Lemma startsWith_spec (s pat : list Z) :
  startsWith s pat = true ↔ ∃ r, s = pat ++ r.
Proof.
  revert s. induction pat as [|c pat IH]; intros s.
  - split; [by exists s | by destruct s].
  - destruct s as [|d s]; simpl.
    + split; [done | by intros [r ?]].
    + rewrite andb_true_iff, Z.eqb_eq, IH. split.
      * intros [-> [r ->]]. by exists r.
      * intros [r [= -> ->]]. split; [done | by exists r].
Qed.

Lemma includes_spec (s pat : list Z) : includes s pat = true ↔ occurs pat s.
Proof.
  unfold occurs. induction s as [|d s IH]; cbn [includes].
  - rewrite orb_false_r, startsWith_spec. split.
    + intros [r ->]. by exists [], r.
    + intros (l & r & Heq). symmetry in Heq.
      apply app_eq_nil in Heq as [-> Heq]. exists r. by rewrite Heq.
  - rewrite orb_true_iff, startsWith_spec, IH. split.
    + intros [[r ->] | (l & r & ->)]; [by exists [], r | by exists (d :: l), r].
    + intros ([|d' l] & r & Heq); simpl in Heq.
      * left. by exists r.
      * right. injection Heq as -> ->. by exists l, r.
Qed.

Lemma occurs_app_sep (pat x z : list Z) (c : Z) :
  pat ≠ [] → c ∉ pat →
  occurs pat (x ++ c :: z) ↔ occurs pat x ∨ occurs pat z.
Proof.
  intros Hne Hc. unfold occurs. split.
  - intros (l & r & Heq).
    apply app_eq_inv in Heq as [(k & -> & Heq) | (k & -> & Heq)].
    + apply app_eq_inv in Heq as [(k' & -> & Heq) | (k' & -> & Heq)].
      * destruct k' as [|c' k']; simpl in Heq.
        -- left. exists l, []. by rewrite ?app_nil_r.
        -- injection Heq as <- _. exfalso. apply Hc.
           apply elem_of_app. right. by left.
      * left. exists l, k'. by rewrite <- ?app_assoc.
    + destruct k as [|c' k]; simpl in Heq.
      * destruct pat as [|c' pat]; [done|]. injection Heq as <- _.
        exfalso. apply Hc. by left.
      * injection Heq as <- ->. right. by exists k, r.
  - intros [(l & r & ->) | (l & r & ->)].
    + exists l, (r ++ c :: z). by rewrite <- ?app_assoc.
    + exists (x ++ c :: l), r. by rewrite <- ?app_assoc.
Qed.

Lemma occurs_join (pat : list Z) (c : Z) (l : list (list Z)) :
  pat ≠ [] → c ∉ pat →
  occurs pat (join [c] l) ↔ ∃ a, a ∈ l ∧ occurs pat a.
Proof.
  intros Hne Hc. induction l as [|x [|y rest] IH].
  - simpl. split.
    + intros (l & r & Heq). symmetry in Heq.
      apply app_eq_nil in Heq as [_ [-> _]%app_eq_nil]. done.
    + intros (a & Ha & _). by apply elem_of_nil in Ha.
  - simpl. split.
    + intros H. exists x. split; [by left | done].
    + intros (a & Ha & H). apply list_elem_of_singleton in Ha. by subst.
  - change (join [c] (x :: y :: rest)) with (x ++ c :: join [c] (y :: rest)).
    rewrite occurs_app_sep, IH by done. split.
    + intros [H | (a & Ha & H)].
      * exists x. split; [by left | done].
      * exists a. split; [by right | done].
    + intros (a & Ha & H). apply elem_of_cons in Ha as [-> | Ha].
      * by left.
      * right. by exists a.
Qed.

Lemma digits_are_digits (d : Decimal.uint) :
  Forall (λ c, (48 <= c <= 57)%Z) (digits d).
Proof. induction d; simpl; constructor; (lia || done). Qed.

Lemma cdpFlag_no_space (port : N) : cdpFlag port ≠ [] ∧ 32%Z ∉ cdpFlag port.
Proof.
  split; [done|]. unfold cdpFlag. intros [Hin|Hin]%elem_of_app.
  - assert (Forall (λ c, c ≠ 32%Z) (units "--remote-debugging-port=")) as Hlit
      by (repeat constructor; done).
    rewrite Forall_forall in Hlit. by apply Hlit in Hin.
  - pose proof (digits_are_digits (N.to_uint port)) as Hd.
    rewrite Forall_forall in Hd. apply Hd in Hin. lia.
Qed.

(** X16: [hasFlag] looks for the flag text in the command line joined with
    spaces, and the flag [--remote-debugging-port=<port>] contains no space:
    it answers true exactly when some single argument contains that text.
    An argument that only begins with it, such as the flag for a port with
    more digits, counts as well. *)
Theorem hasFlag_iff_some_argument_contains_the_flag (argv : list (list Z))
    (port : N) :
  (hasFlag argv port = true
   ↔ ∃ a, a ∈ argv ∧ includes a (cdpFlag port) = true)
  ∧ (∀ before after,
       before ++ cdpFlag port ++ after ∈ argv → hasFlag argv port = true).
Proof.
  destruct (cdpFlag_no_space port) as [Hne Hsp].
  assert (Hiff : hasFlag argv port = true
                 ↔ ∃ a, a ∈ argv ∧ includes a (cdpFlag port) = true).
  { unfold hasFlag. rewrite includes_spec, occurs_join by done.
    by setoid_rewrite includes_spec. }
  split; [done|]. intros before after Hin. apply Hiff.
  eexists. split; [done|]. apply includes_spec. by exists before, after.
Qed.

End HasFlag.

Section Relaunch.

Import Relauncher.

Lemma relaunchArgs_from (init : list (list Z)) (folders : list (list Z)) :
  foldl (λ args f,
           match _sanitizePath f with
           | [] => args
           | _ :: _ => args ++ [_sanitizePath f]
           end) init folders
  = init ++ filter (λ a, a ≠ []) (_sanitizePath <$> folders).
Proof.
  revert init. induction folders as [|f folders IH]; intros init; simpl.
  - by rewrite app_nil_r.
  - rewrite IH. destruct (_sanitizePath f) as [|c p] eqn:Hf.
    + by rewrite filter_cons_False by (intros H; by apply H).
    + rewrite filter_cons_True by done. by rewrite <- app_assoc.
Qed.

Lemma relaunchArgs_eq (port : N) (folders : list (list Z)) :
  relaunchArgs port folders
  = cdpFlag port :: filter (λ a, a ≠ []) (_sanitizePath <$> folders).
Proof. apply (relaunchArgs_from [cdpFlag port]). Qed.

(** X17: the arguments [_relaunch] passes on are the flag followed by the
    sanitized workspace folders, in their order, without those whose
    sanitized path is empty.  None of the folder arguments is empty or
    contains a shell metacharacter.  On a platform other than Windows these
    arguments and the unchanged executable path are spawned after 2000 ms,
    and the quit command is issued after 500 ms on every platform. *)
Theorem relaunch_arguments_are_sanitized (win32 : bool) (port : N)
    (exePath : list Z) (folders : list (list Z)) (batFile : list Z) :
  relaunchArgs port folders
  = cdpFlag port :: filter (λ a, a ≠ []) (_sanitizePath <$> folders)
  ∧ Forall (λ a, a ≠ [] ∧ Forall (λ c, c ∉ shellMeta) a)
      (tail (relaunchArgs port folders))
  ∧ length (relaunchArgs port folders) ≤ S (length folders)
  ∧ (500%Z, QuitCommand) ∈ later (_relaunch win32 port exePath folders batFile)
  ∧ (win32 = false →
     atOnce (_relaunch win32 port exePath folders batFile) = []
     ∧ later (_relaunch win32 port exePath folders batFile)
       = [(2000%Z, SpawnDetached exePath (relaunchArgs port folders));
          (500%Z, QuitCommand)]).
Proof.
  split_and!.
  - apply relaunchArgs_eq.
  - rewrite relaunchArgs_eq. simpl tail. apply Forall_forall.
    intros a [Hne Hin]%list_elem_of_filter. split; [done|].
    apply list_elem_of_fmap in Hin as (f & -> & _). apply sanitize_no_meta.
  - rewrite relaunchArgs_eq. simpl.
    pose proof (length_filter (λ a : list Z, a ≠ []) (_sanitizePath <$> folders)) as H.
    rewrite length_fmap in H. lia.
  - destruct win32; simpl; [by left | right; by left].
  - by intros ->.
Qed.

(** Membership, and its negation, in a list that is written out. *)
Ltac listed := repeat first [apply list_elem_of_here | apply list_elem_of_further].

Ltac unlisted :=
  let H := fresh in
  intros H; repeat (apply elem_of_cons in H as [H|H]; [done|]);
  by apply elem_of_nil in H.

Lemma join_Forall (P : Z → Prop) (c : Z) (l : list (list Z)) :
  P c → Forall (Forall P) l → Forall P (join [c] l).
Proof.
  intros Hc. induction 1 as [|x [|y rest] Hx Hrest IH]; [done..|].
  change (join [c] (x :: y :: rest)) with (x ++ c :: join [c] (y :: rest)).
  apply Forall_app_2; [done|]. by constructor.
Qed.

Lemma cdpFlag_plain (port : N) :
  Forall (λ c, c ∉ [34; 38; 124; 60; 62; 94; 37]%Z) (cdpFlag port).
Proof.
  unfold cdpFlag. apply Forall_app_2.
  - apply Forall_forall. intros c Hc H.
    assert (Forall (λ c, c = 45 ∨ c = 61 ∨ 97 <= c <= 122)%Z
              (units "--remote-debugging-port=")) as Hlit
      by (vm_compute (units _);
          repeat (apply List.Forall_cons; [lia|]); apply List.Forall_nil).
    rewrite Forall_forall in Hlit. apply Hlit in Hc.
    repeat (apply elem_of_cons in H as [H|H]; [lia|]). by apply elem_of_nil in H.
  - eapply Forall_impl; [apply digits_are_digits|]. intros c Hc H. simpl in Hc.
    repeat (apply elem_of_cons in H as [H|H]; [lia|]). by apply elem_of_nil in H.
Qed.

Lemma sanitize_plain (p : list Z) :
  Forall (λ c, c ∉ [34; 38; 124; 60; 62; 94; 37]%Z) (_sanitizePath p).
Proof.
  eapply Forall_impl; [apply sanitize_no_meta|]. intros c Hc H. apply Hc.
  unfold shellMeta.
  repeat (apply elem_of_cons in H as [->|H]; [listed|]).
  by apply elem_of_nil in H.
Qed.

Lemma lineFeeds_app (s t : list Z) :
  lineFeeds (s ++ t) = lineFeeds s + lineFeeds t.
Proof. unfold lineFeeds. by rewrite filter_app, length_app. Qed.

Lemma lineFeeds_none (s : list Z) :
  Forall (λ c, c ≠ 10%Z) s → lineFeeds s = 0.
Proof.
  unfold lineFeeds. induction 1 as [|c s Hc _ IH]; [done|].
  by rewrite filter_cons_False.
Qed.

Lemma lineFeeds_sanitizePath (p : list Z) :
  lineFeeds (_sanitizePath p) = lineFeeds p.
Proof.
  unfold lineFeeds, _sanitizePath. induction p as [|c p IH]; [done|].
  destruct (decide (c = 10%Z)) as [->|Hc].
  - rewrite (filter_cons_True (λ c, allowed c = true)) by done.
    rewrite !(filter_cons_True (λ c, c = 10%Z)) by done. simpl. by rewrite IH.
  - rewrite (filter_cons_False (λ c, c = 10%Z) c p) by done.
    destruct (decide (allowed c = true)).
    + rewrite (filter_cons_True (λ c, allowed c = true)) by done.
      by rewrite (filter_cons_False (λ c, c = 10%Z)).
    + by rewrite (filter_cons_False (λ c, allowed c = true)).
Qed.

Lemma lineFeeds_join (l : list (list Z)) :
  lineFeeds (join [32%Z] l) = sum_list (lineFeeds <$> l).
Proof.
  induction l as [|x [|y rest] IH]; [done| |].
  - simpl. lia.
  - change (join [32%Z] (x :: y :: rest))
      with (x ++ [32%Z] ++ join [32%Z] (y :: rest)).
    rewrite !lineFeeds_app, IH. reflexivity.
Qed.

Lemma cdpFlag_one_line (port : N) : lineFeeds (cdpFlag port) = 0.
Proof.
  unfold cdpFlag. rewrite lineFeeds_app.
  rewrite (lineFeeds_none (digits _)).
  - reflexivity.
  - eapply Forall_impl; [apply digits_are_digits|]. intros c Hc. simpl in Hc. lia.
Qed.

Lemma lineFeeds_folders (folders : list (list Z)) :
  sum_list (lineFeeds <$> filter (λ a, a ≠ []) (_sanitizePath <$> folders))
  = sum_list (lineFeeds <$> folders).
Proof.
  induction folders as [|f folders IH]; [done|].
  rewrite !fmap_cons. cbn [sum_list sum_list_with].
  rewrite <- (lineFeeds_sanitizePath f), <- IH.
  destruct (_sanitizePath f) as [|c p] eqn:Hf.
  - by rewrite filter_cons_False by (intros H; by apply H).
  - by rewrite filter_cons_True by done.
Qed.

(** X18: the characters of the batch file written on Windows.  Whatever the
    executable path and the folder names are, the file contains exactly two
    double quotes, those around the executable path, exactly one [>], that of
    [>nul], and no [&], [|], [<], [^] or [%].  Line feeds are not removed
    from the paths: the file has its own three and every one the executable
    path and the folder names contain, so with a line feed in one of them
    what follows it stands on a line of its own. *)
Theorem batch_file_special_characters (port : N) (exePath : list Z)
    (folders : list (list Z)) :
  length (filter (λ c, c = 34%Z) (batContent port exePath folders)) = 2
  ∧ length (filter (λ c, c = 62%Z) (batContent port exePath folders)) = 1
  ∧ Forall (λ c, c ∉ [38; 124; 60; 94; 37]%Z) (batContent port exePath folders)
  ∧ lineFeeds (batContent port exePath folders)
    = 3 + lineFeeds exePath + sum_list (lineFeeds <$> folders).
Proof.
  assert (Hargs : Forall (λ c, c ∉ [34; 38; 124; 60; 62; 94; 37]%Z)
                    (join [32%Z] (relaunchArgs port folders))).
  { apply join_Forall; [unlisted|]. rewrite relaunchArgs_eq.
    constructor; [apply cdpFlag_plain|]. apply Forall_forall.
    intros a [_ Hin]%list_elem_of_filter.
    apply list_elem_of_fmap in Hin as (f & -> & _). apply sanitize_plain. }
  pose proof (sanitize_plain exePath) as Hexe.
  assert (Hcount : ∀ (d : Z) (l : list Z),
            d ∈ [34; 38; 124; 60; 62; 94; 37]%Z →
            Forall (λ c, c ∉ [34; 38; 124; 60; 62; 94; 37]%Z) l →
            filter (λ c, c = d) l = []).
  { intros d l Hd Hl. induction Hl as [|c l Hc _ IH]; [done|].
    rewrite filter_cons_False; [done|]. intros ->. by apply Hc. }
  unfold batContent. split_and!.
  - rewrite !filter_app, !length_app.
    rewrite (Hcount 34%Z _ ltac:(listed) Hargs),
      (Hcount 34%Z _ ltac:(listed) Hexe). reflexivity.
  - rewrite !filter_app, !length_app.
    rewrite (Hcount 62%Z _ ltac:(listed) Hargs),
      (Hcount 62%Z _ ltac:(listed) Hexe). reflexivity.
  - assert (Hweak : ∀ l, Forall (λ c, c ∉ [34; 38; 124; 60; 62; 94; 37]%Z) l →
                         Forall (λ c, c ∉ [38; 124; 60; 94; 37]%Z) l).
    { intros l Hl. eapply Forall_impl; [exact Hl|]. intros c Hc H. apply Hc.
      repeat (apply elem_of_cons in H as [->|H]; [listed|]).
      by apply elem_of_nil in H. }
    repeat (apply Forall_app_2); try (by apply Hweak);
      repeat constructor; unlisted.
  - rewrite !lineFeeds_app, lineFeeds_sanitizePath, lineFeeds_join.
    rewrite relaunchArgs_eq, fmap_cons. cbn [sum_list sum_list_with].
    rewrite cdpFlag_one_line, lineFeeds_folders. unfold id.
    change (lineFeeds (units "@echo off")) with 0.
    change (lineFeeds (units "timeout /t 2 /nobreak >nul")) with 0.
    change (lineFeeds [10%Z]) with 1. change (lineFeeds [34%Z]) with 0.
    change (lineFeeds [32%Z]) with 0. lia.
Qed.

End Relaunch.

(** * The extension entry point *)

Section EntryPoint.

Import Extension.

Ltac ext_fields :=
  cbn [enabled relaunchAttempted pollTimer scheduler savedEnabled statusOn
       pollInterval cdpPort polls nextPoll cdpCalls relaunches warnings pending
       set_enabled set_scheduler set_pending set_settings call persist warn
       proposeRelaunch updateStatusBar negb andb orb] in *.

(** The scheduler as the entry point drives it: timers consistent, no
    interval timer, never paused. *)
Let SchedulerOk (w : World) : Prop :=
  TimerTable w ∧ intervalTimer (sched w) = None ∧ isPaused (sched w) = false.

(** Relaunch latch, poll timer table, handler call trace, scheduler. *)
Let Core (x : Ext) : Prop :=
  (length (relaunches x) ≤ 1 ∧ (relaunchAttempted x = false → relaunches x = []))
  ∧ ((∀ h p, polls x !! h = Some p → pollTimer x = Some h ∧ h < nextPoll x)
     ∧ (∀ h, pollTimer x = Some h → is_Some (polls x !! h)))
  ∧ (wellBracketed (cdpCalls x) false = true
     ∧ started (cdpCalls x) false = bool_decide (is_Some (pollTimer x)))
  ∧ SchedulerOk (scheduler x).

Let ExtInv (x : Ext) : Prop :=
  Core x ∧ (statusOn x = enabled x ∨ toggleInFlight x).

Lemma started_app (l : list CdpCall) (c : CdpCall) (o : bool) :
  started (l ++ [c]) o
  = match c with CdpStart => true | CdpStop => false | CdpPoll => started l o end.
Proof.
  revert o. induction l as [|d l IH]; intros o; [by destruct c|].
  destruct d; simpl; apply IH.
Qed.

Lemma wellBracketed_app (l : list CdpCall) (c : CdpCall) (o : bool) :
  wellBracketed (l ++ [c]) o
  = wellBracketed l o
    && match c with CdpStart => negb (started l o) | _ => true end.
Proof.
  revert o. induction l as [|d l IH]; intros o.
  - destruct c; simpl; by rewrite ?andb_true_r.
  - destruct d; simpl; rewrite IH; by rewrite ?andb_assoc.
Qed.

Lemma advanceQueue_isPaused (w : World) :
  isPaused (sched (_advanceQueue w)) = isPaused (sched w).
Proof.
  unfold _advanceQueue. case_match.
  - apply (onQueueComplete_isPaused (upd (set_queueIndex (S (queueIndex (sched w)))) w)).
  - apply (executeCurrentItem_isPaused 0
             (upd (set_queueIndex (S (queueIndex (sched w)))) w)).
Qed.

Lemma settled_isPaused (retry : nat) (ok : bool) (w : World) :
  isPaused (sched (_executeCurrentItem_settled retry ok w)) = isPaused (sched w).
Proof.
  unfold _executeCurrentItem_settled.
  repeat case_match; try done. apply advanceQueue_isPaused.
Qed.

Lemma checkSilence_isPaused (stats : Stats) (w : World) :
  isPaused (sched (_checkSilence stats w)) = isPaused (sched w).
Proof.
  unfold _checkSilence.
  destruct (_ || _); [done|].
  destruct (currentItemSentAt (sched w)) as [sentAt|]; [|done].
  destruct (sentAt =? 0)%Z; [done|]. destruct (Qltb _ _); [done|].
  destruct (_ && _); destruct (Qgeb _ _); try done.
  - apply (advanceQueue_isPaused (upd (set_lastActivityTime _) w)).
  - apply advanceQueue_isPaused.
Qed.

Lemma QueueStep_intervalTimer (w w' : World) :
  QueueStep w w' → intervalTimer (sched w') = intervalTimer (sched w).
Proof. by intros (_ & ? & _). Qed.

Lemma SchedulerOk_env (e : Event) (w w' : World) :
  SchedulerOk w → isEnvEvent e = true → fire e w = Some w' → SchedulerOk w'.
Proof.
  intros (Htab & Hint & Hp) Henv Hfire.
  split; [by apply (TimerTable_fire e w)|].
  destruct e; try discriminate Henv; simpl in Hfire.
  - destruct (intervals w !! h) as [[ms [|p]]|]; simplify_eq; [|done].
    rewrite (QueueStep_intervalTimer w) by apply QueueStep_checkSilence.
    by rewrite checkSilence_isPaused.
  - destruct (timeouts w !! i) as [t|]; [|done]. case_match; simplify_eq.
    rewrite executeCurrentItem_isPaused.
    by rewrite (QueueStep_intervalTimer w)
      by apply (QueueStep_executeCurrentItem _ (set_timeouts _ w)).
  - destruct (inflight w !! i) as [p|]; simplify_eq.
    rewrite settled_isPaused.
    by rewrite (QueueStep_intervalTimer w)
      by apply (QueueStep_settled _ _ (set_inflight _ w)).
  - case_match; by simplify_eq.
  - by simplify_eq.
  - by simplify_eq.
Qed.

Lemma SchedulerOk_startQueue (arg : option nat) (w : World) :
  SchedulerOk w → SchedulerOk (startQueue arg w).
Proof.
  intros (Htab & Hint & Hp). split; [by apply TimerTable_startQueue|].
  destruct (resolveItems arg w) as [|item rest] eqn:Hitems.
  - unfold startQueue. by rewrite Hitems.
  - by rewrite (startQueue_nonempty arg w item rest Hitems), startCheckTimer_eq.
Qed.

Lemma SchedulerOk_stopQueue (w : World) : SchedulerOk w → SchedulerOk (stopQueue w).
Proof.
  intros (Htab & Hint & Hp). split.
  - eauto using TimerTable_QueueStep, QueueStep_stopQueue.
  - rewrite (QueueStep_intervalTimer w) by apply QueueStep_stopQueue.
    split; [done|]. unfold stopQueue, _stopCheckTimer; fields.
    by destruct (checkTimer (sched w)).
Qed.

Lemma SchedulerOk_stop (w : World) : SchedulerOk w → SchedulerOk (stop w).
Proof.
  intros Hok. pose proof (SchedulerOk_stopQueue w Hok) as (Htab & Hint & Hp).
  unfold stop. split; [by apply TimerTable_stopInterval|].
  unfold stopInterval. by rewrite Hint.
Qed.

Lemma in_delete_other {A} (l : list A) (i : nat) (k k' : A) :
  l !! i = Some k → k ≠ k' → k' ∈ l → k' ∈ delete i l.
Proof.
  intros Hi Hne [j Hj]%list_elem_of_lookup.
  assert (i ≠ j) by (intros ->; congruence).
  apply list_elem_of_lookup.
  destruct (decide (j < i)).
  - exists j. by rewrite list_lookup_delete_lt.
  - exists (pred j). rewrite list_lookup_delete_ge by lia.
    replace (S (pred j)) with j by lia. done.
Qed.

Lemma toggleInFlight_delete (x : Ext) (i : nat) (k : Pending) :
  pending x !! i = Some k → k ≠ ToggleAvailable → k ≠ ToggleRelaunch →
  toggleInFlight x → toggleInFlight (set_pending (delete i (pending x)) x).
Proof.
  intros Hi H1 H2 [Hin|Hin]; [left | right]; ext_fields;
    by apply (in_delete_other _ _ k).
Qed.

Lemma Core_startPolling (x : Ext) : Core x → Core (startPolling x).
Proof.
  intros Hcore. unfold startPolling.
  destruct (pollTimer x) as [h|] eqn:Hh; [done|].
  destruct Hcore as ((Hlen & Hnone) & (Hpolls & Hact) & (Hwb & Hst) & Hsch).
  unfold Core; ext_fields. rewrite Hh in Hst.
  split_and!; try done.
  - intros h p [[<- _] | [_ Hin]]%lookup_insert_Some; [split; [done | lia]|].
    apply Hpolls in Hin as [? _]. congruence.
  - intros h [= <-]. rewrite lookup_insert_eq. by eexists.
  - rewrite wellBracketed_app, Hwb, Hst. done.
  - by rewrite started_app.
Qed.

Lemma Core_stopPolling (x : Ext) : Core x → Core (stopPolling x).
Proof.
  intros ((Hlen & Hnone) & (Hpolls & Hact) & (Hwb & Hst) & Hsch). unfold stopPolling.
  destruct (pollTimer x) as [h|] eqn:Hh; unfold Core; ext_fields.
  - split_and!; try done.
    + intros h' p [Hne Hin]%lookup_delete_Some.
      apply Hpolls in Hin as [? _]. congruence.
    + by rewrite wellBracketed_app, Hwb.
    + by rewrite started_app.
  - rewrite Hh. split_and!; try done.
    + by rewrite wellBracketed_app, Hwb.
    + by rewrite started_app.
Qed.

Lemma startPolling_frame (x : Ext) :
  scheduler (startPolling x) = scheduler x
  ∧ statusOn (startPolling x) = statusOn x
  ∧ enabled (startPolling x) = enabled x
  ∧ pending (startPolling x) = pending x.
Proof. unfold startPolling. by destruct (pollTimer x). Qed.

Lemma stopPolling_frame (x : Ext) :
  scheduler (stopPolling x) = scheduler x
  ∧ statusOn (stopPolling x) = statusOn x
  ∧ enabled (stopPolling x) = enabled x
  ∧ pending (stopPolling x) = pending x.
Proof. unfold stopPolling. by destruct (pollTimer x). Qed.

Lemma Core_proposeRelaunch (port : N) (k : Pending) (x : Ext) :
  relaunchAttempted x = false → Core x → Core (proposeRelaunch port k x).
Proof.
  intros Hfirst ((Hlen & Hnone) & Hrest). split; [|done]. ext_fields.
  rewrite (Hnone Hfirst). by split.
Qed.

Lemma Core_set_scheduler (w : World) (x : Ext) :
  SchedulerOk w → Core x → Core (set_scheduler w x).
Proof.
  intros Hw (H1 & H2 & H3 & _).
  split; [exact H1|]. split; [exact H2|]. split; [exact H3 | exact Hw].
Qed.

Lemma ExtInv_updateStatusBar (x : Ext) : Core x → ExtInv (updateStatusBar x).
Proof. intros Hcore. split; [done | by left]. Qed.

Lemma ExtInv_fireExt (e : ExtEvent) (x x' : Ext) :
  ExtInv x → fireExt e x = Some x' → ExtInv x'.
Proof.
  intros [Hcore Hstatus] Hfire. destruct e; simpl in Hfire.
  - simplify_eq. unfold toggle; ext_fields.
    destruct (enabled x); ext_fields.
    + apply ExtInv_updateStatusBar.
      by apply (Core_stopPolling (persist false (set_enabled false x))).
    + split; [done|]. right. left. ext_fields.
      apply elem_of_app. right. by left.
  - destruct (pending x !! i) as [k|] eqn:Hk; [|done]. simplify_eq.
    set (x1 := set_pending (delete i (pending x)) x).
    assert (Core x1) as Hcore1 by done.
    destruct k.
    + unfold toggle_available. destruct available; ext_fields.
      * by apply ExtInv_updateStatusBar, Core_startPolling.
      * destruct (relaunchAttempted x1) eqn:Hatt; ext_fields.
        -- by apply ExtInv_updateStatusBar.
        -- split; [by apply Core_proposeRelaunch|]. right. right. ext_fields.
           apply elem_of_app. right. by left.
    + by apply ExtInv_updateStatusBar.
    + assert (Hstatus1 : statusOn x1 = enabled x1 ∨ toggleInFlight x1).
      { destruct Hstatus as [?|Hfl]; [by left | right].
        by apply (toggleInFlight_delete x i (ActivateAvailable shouldStart)). }
      unfold activate_available.
      destruct (available && shouldStart).
      { apply ExtInv_updateStatusBar.
        by apply (Core_startPolling (set_enabled true x1)). }
      destruct available; [done|].
      destruct (negb (relaunchAttempted x1) && shouldStart) eqn:Hg; [|done].
      apply andb_true_iff in Hg as [Hatt%negb_true_iff _].
      split; [by apply Core_proposeRelaunch|].
      destruct Hstatus1 as [?|[Hfl|Hfl]]; [by left | right; left | right; right];
        ext_fields; apply elem_of_app; by left.
    + split; [done|].
      destruct Hstatus as [?|Hfl]; [by left | right].
      by apply (toggleInFlight_delete x i ActivateRelaunch).
  - destruct (polls x !! h); [|done]. simplify_eq. unfold pollTick.
    destruct (negb (enabled x)); [by split|]. split; [|done].
    destruct Hcore as ((Hlen & Hnone) & (Hpolls & Hact) & (Hwb & Hst) & Hsch).
    unfold Core; ext_fields. split_and!; try done.
    + by rewrite wellBracketed_app, Hwb.
    + by rewrite started_app.
  - simplify_eq. split; [|done]. apply Core_set_scheduler; [|done].
    apply SchedulerOk_startQueue, Hcore.
  - simplify_eq. split; [|done]. apply Core_set_scheduler; [|done].
    apply SchedulerOk_stopQueue, Hcore.
  - repeat case_match; try done. simplify_eq.
    unfold configChanged.
    set (x0 := set_settings interval x).
    assert (Core x0) as Hcore0 by done.
    destruct (enabled x0) eqn:He.
    + destruct (stopPolling_frame x0) as (Hs1 & Hs2 & Hs3 & Hs4).
      destruct (startPolling_frame (stopPolling x0)) as (Ht1 & Ht2 & Ht3 & Ht4).
      split.
      * apply Core_set_scheduler; [|by apply Core_startPolling, Core_stopPolling].
        rewrite Ht1, Hs1. apply Hcore.
      * unfold toggleInFlight in *; ext_fields.
        by rewrite Ht2, Ht3, Ht4, Hs2, Hs3, Hs4.
    + split; [|done]. apply Core_set_scheduler; [|done]. apply Hcore.
  - simplify_eq. unfold deactivate.
    destruct (stopPolling_frame x) as (Hs1 & Hs2 & Hs3 & Hs4). split.
    + apply Core_set_scheduler; [|by apply Core_stopPolling].
      apply SchedulerOk_stop. rewrite Hs1. apply Hcore.
    + unfold toggleInFlight in *; ext_fields. by rewrite Hs2, Hs3, Hs4.
  - destruct (isEnvEvent e) eqn:Henv; [|done].
    destruct (fire e (scheduler x)) as [w|] eqn:Hf; simplify_eq.
    split; [|done]. apply Core_set_scheduler; [|done].
    apply (SchedulerOk_env e (scheduler x)); [apply Hcore | done..].
Qed.

Lemma ExtInv_reachable (x : Ext) : reachableExt x → ExtInv x.
Proof.
  intros (saved & autoStart & interval & port & c & h & t & es & Hrun).
  assert (ExtInv (activate saved autoStart interval port c h t)) as H0.
  { split; [|by left]. unfold Core, activate; ext_fields.
    split; [split; [simpl; lia | done]|].
    split; [split; [intros h' p Hin; by rewrite lookup_empty in Hin | done]|].
    split; [done|]. split; [|done].
    apply TimerTable_reachable. by exists c, h, t, []. }
  revert H0 Hrun. generalize (activate saved autoStart interval port c h t) as x0.
  induction es as [|e es IH]; intros x0 H0 Hrun; simpl in Hrun.
  - by simplify_eq.
  - destruct (fireExt e x0) as [x1|] eqn:Hf; [|done].
    eauto using ExtInv_fireExt.
Qed.

Lemma TimerTable_no_handles (w : World) :
  TimerTable w → checkTimer (sched w) = None → intervalTimer (sched w) = None →
  intervals w = ∅.
Proof.
  intros (_ & _ & _ & Hall & _) Hc Hi. apply map_empty. intros h.
  destruct (intervals w !! h) as [iv|] eqn:Hin; [|done].
  destruct (Hall h iv Hin); congruence.
Qed.

(** X19: the relaunch is proposed at most once per activation.  Whatever
    the order in which toggles, the start-up check and their awaited results
    interleave, [ensureCDPAndRelaunch] is called at most once, and not at all
    while [relaunchAttempted] is false. *)
Theorem relaunch_is_proposed_at_most_once (x : Ext) :
  reachableExt x →
  length (relaunches x) ≤ 1
  ∧ (relaunchAttempted x = false → relaunches x = []).
Proof. intros Hinv%ExtInv_reachable. apply Hinv. Qed.

(** X20: at most one poll timer is active, the one [pollTimer] refers to,
    and a set [pollTimer] always refers to an active timer.  In the sequence
    of calls made to the CDP handler no [start] follows another [start]
    without a [stop] in between, and the handler is started exactly while the
    poll timer is set. *)
Theorem one_poll_timer_and_bracketed_handler_calls (x : Ext) :
  reachableExt x →
  (∀ h p, polls x !! h = Some p → pollTimer x = Some h)
  ∧ (∀ h, pollTimer x = Some h → is_Some (polls x !! h))
  ∧ size (polls x) ≤ 1
  ∧ wellBracketed (cdpCalls x) false = true
  ∧ (started (cdpCalls x) false = true ↔ is_Some (pollTimer x)).
Proof.
  intros ((_ & (Hpolls & Hact) & (Hwb & Hst) & _) & _)%ExtInv_reachable.
  split_and!; try done.
  - intros h p Hin. by apply Hpolls in Hin as [? _].
  - rewrite <- size_dom.
    assert (Hsub : dom (polls x) ⊆ (match pollTimer x with
                                    | Some h => {[h]}
                                    | None => ∅
                                    end : gset nat)).
    { intros h [p Hin]%elem_of_dom. apply Hpolls in Hin as [-> _].
      by apply elem_of_singleton. }
    etrans; [apply (subseteq_size _ _ Hsub)|].
    destruct (pollTimer x); rewrite ?size_singleton, ?size_empty; lia.
  - rewrite Hst. apply bool_decide_eq_true.
Qed.

(** X21: whenever no toggle is waiting for an awaited result, the status
    bar shows the current value of [enabled]. *)
Theorem status_bar_shows_enabled (x : Ext) :
  reachableExt x → ¬ toggleInFlight x → statusOn x = enabled x.
Proof. intros [_ [?|?]]%ExtInv_reachable Hidle; [done | by destruct Hidle]. Qed.

(** X22: the entry point never pauses the queue and never starts the
    interval repeater.  In every state it can reach, the scheduler is not
    paused, has no interval timer and sends no interval prompt; its only
    repeating timer is the silence check, active exactly while the queue
    runs. *)
Theorem entry_point_never_pauses_or_repeats (x : Ext) :
  reachableExt x →
  isPaused (sched (scheduler x)) = false
  ∧ intervalTimer (sched (scheduler x)) = None
  ∧ (∀ h, ¬ isIntervalSendTimer (scheduler x) h)
  ∧ (∀ h iv, intervals (scheduler x) !! h = Some iv →
             checkTimer (sched (scheduler x)) = Some h
             ∧ iv = mkInterval 5000%float CheckSilenceCb)
  ∧ (isRunning (sched (scheduler x)) = true
     ↔ is_Some (checkTimer (sched (scheduler x)))).
Proof.
  intros ((_ & _ & _ & (Htab & Hint & Hp)) & _)%ExtInv_reachable.
  split; [done|]. split; [done|].
  split; [by apply no_interval_send_without_handle|].
  destruct Htab as (_ & Hck & _ & Hall & Hrun). split; [|done].
  intros h iv Hin. destruct (Hall h iv Hin) as [Hh|Hh]; [|congruence].
  split; [done|]. apply Hck in Hh. congruence.
Qed.

(** X23: [deactivate] stops everything that repeats.  Afterwards no poll
    timer and no scheduler timer is active, both handles are cleared, the
    queue is not running, and the last call made to the CDP handler is
    [stop]. *)
Theorem deactivate_stops_everything (x : Ext) :
  reachableExt x →
  polls (deactivate x) = ∅
  ∧ pollTimer (deactivate x) = None
  ∧ intervals (scheduler (deactivate x)) = ∅
  ∧ isRunning (sched (scheduler (deactivate x))) = false
  ∧ last (cdpCalls (deactivate x)) = Some CdpStop.
Proof.
  intros Hinv%ExtInv_reachable.
  pose proof (ExtInv_fireExt Deactivate x (deactivate x) Hinv eq_refl)
    as ((_ & (Hpolls & _) & _ & (Htab & Hint & _)) & _).
  assert (Hnone : pollTimer (deactivate x) = None).
  { unfold deactivate, stopPolling. by destruct (pollTimer x) eqn:Hpt. }
  assert (Hfields : checkTimer (sched (scheduler (deactivate x))) = None
                    ∧ isRunning (sched (scheduler (deactivate x))) = false).
  { unfold deactivate; ext_fields. destruct (stopPolling_frame x) as (-> & _).
    unfold stop, stopInterval, stopQueue, _stopCheckTimer; fields.
    destruct (checkTimer (sched (scheduler x))) eqn:Hc; fields;
      destruct (intervalTimer (sched (scheduler x))) eqn:Hi; fields; done. }
  destruct Hfields as (Hc & Hr). split_and!; try done.
  - apply map_empty. intros h.
    destruct (polls (deactivate x) !! h) as [p|] eqn:Hin; [|done].
    apply Hpolls in Hin as [? _]. congruence.
  - by apply TimerTable_no_handles.
  - unfold deactivate, stopPolling; ext_fields.
    destruct (pollTimer x); ext_fields; apply last_snoc.
Qed.

End EntryPoint.

(** ** The index and the queue *)

(** X24: on every run from the constructor in which no last attempt fails on
    a stopped queue, the index stays within the queue and a running queue
    has a current item: [getStatus] reports [queueIndex] at most
    [queueLength], and while it reports [isRunning] the item at [queueIndex]
    exists. *)
Theorem running_queue_has_a_current_item (c : Config)
    (h : gmap nat (list string)) (t : Z) (es : list Event) (w : World) :
  noStaleFailure es (new_Scheduler c h t) →
  run es (new_Scheduler c h t) = Some w →
  st_queueIndex (getStatus w) ≤ st_queueLength (getStatus w)
  ∧ (st_isRunning (getStatus w) = true →
     st_queueIndex (getStatus w) < st_queueLength (getStatus w)
     ∧ ∃ item, queue w !! queueIndex (sched w) = Some item).
Proof.
  intros Hfresh Hrun.
  destruct (queueIndex_bounded es _ _ (QueueInv_new c h t) Hfresh Hrun)
    as [Hle Hlt].
  split; [exact Hle|]. intros Hr. split; [by apply Hlt|].
  apply lookup_lt_is_Some_2. by apply Hlt.
Qed.

(** ** The theorems at concrete states *)

Lemma Scenario_repeating_reachable : reachable Scenario.repeating.
Proof.
  exists Session.settings, Session.store, 1000%Z,
    ([LoadConfig Session.edited; StartInterval]
     ++ Session.begin ["A"%string; "B"%string]).
  vm_compute; reflexivity.
Qed.

Lemma Scenario_portClosed_reachable : Extension.reachableExt Scenario.portClosed.
Proof.
  exists None, true, 1000%Z, 9004%N, Session.settings, Session.store, 1000%Z,
    [Extension.Settled 0 false].
  reflexivity.
Qed.

Lemma Scenario_polling_reachable : Extension.reachableExt Scenario.polling.
Proof.
  exists None, true, 1000%Z, 9004%N, Session.settings, Session.store, 1000%Z,
    [Extension.Settled 0 true; Extension.StartQueueCommand].
  reflexivity.
Qed.

Lemma timers_are_the_referenced_ones_witness :
  reachable Scenario.repeating ∧ size (intervals Scenario.repeating) ≤ 2.
Proof.
  split; [exact Scenario_repeating_reachable|].
  apply (timers_are_the_referenced_ones Scenario.repeating
           Scenario_repeating_reachable).
Defined.

Lemma silence_check_active_iff_running_witness :
  reachable Session.running
  ∧ (isRunning (sched Session.running) = true
     ↔ is_Some (checkTimer (sched Session.running))).
Proof.
  split; [exact Session_running_reachable|].
  apply (silence_check_active_iff_running Session.running
           Session_running_reachable).
Defined.

Lemma stop_clears_every_timer_witness :
  reachable Scenario.repeating ∧ intervals (stop Scenario.repeating) = ∅.
Proof.
  split; [exact Scenario_repeating_reachable|].
  apply (stop_clears_every_timer Scenario.repeating
           Scenario_repeating_reachable).
Defined.

Lemma interval_timer_survives_queue_events_witness :
  intervalTimer (sched (stopQueue Scenario.repeating)) = Some 0
  ∧ intervals (stopQueue Scenario.repeating) !! 0
    = Some (mkInterval (1 * 60 * 1000)%float
              (IntervalSendCb "ping")).
Proof.
  apply (interval_timer_survives_queue_events StopQueue Scenario.repeating
           (stopQueue Scenario.repeating) 0
           (mkInterval (1 * 60 * 1000)%float
              (IntervalSendCb "ping")) Scenario_repeating_reachable);
    reflexivity.
Defined.

Lemma Scenario_shortInterval_reachable : reachable Scenario.shortInterval.
Proof.
  exists Session.settings, Session.store, 1000%Z,
    [LoadConfig (mkConfig true "interval" 0 (5 # 1) 0.03%float "ping")].
  vm_compute; reflexivity.
Qed.

Lemma startInterval_replaces_the_timer_witness :
  reachable Scenario.shortInterval
  ∧ ∃ h, intervals (startInterval Scenario.shortInterval) !! h
         = Some (mkInterval 1799.9999999999998%float (IntervalSendCb "ping")).
Proof.
  split; [exact Scenario_shortInterval_reachable|].
  destruct (startInterval_replaces_the_timer Scenario.shortInterval
              Scenario_shortInterval_reachable) as (_ & _ & _ & _ & Hfull).
  destruct (Hfull ltac:(done)) as (h & _ & Hin & _).
  exists h. exact Hin.
Defined.

Lemma stopInterval_cancels_only_the_interval_witness :
  reachable Scenario.repeating
  ∧ intervalTimer (sched (stopInterval Scenario.repeating)) = None.
Proof.
  split; [exact Scenario_repeating_reachable|].
  apply (stopInterval_cancels_only_the_interval Scenario.repeating
           Scenario_repeating_reachable).
Defined.

Lemma skip_while_paused_then_resume_witness :
  sent (resumeQueue (skipPrompt (pauseQueue Session.running)))
  = sent Session.running ++ ["B"%string].
Proof.
  apply (skip_while_paused_then_resume Session.running "B"); reflexivity.
Defined.

Lemma every_attempt_restarts_the_grace_period_witness :
  (5000 < 10000)%Z
  ∧ _checkSilence Session.noStats
      (set_now (now Session.running + 5000)
         (_executeCurrentItem 1 Session.running))
    = set_now (now Session.running + 5000)
        (_executeCurrentItem 1 Session.running).
Proof.
  split; [lia|].
  exact (proj1 (every_attempt_restarts_the_grace_period Session.noStats
                  Session.running 5000 ltac:(lia)) 1).
Defined.

Lemma recent_activity_keeps_the_item_witness :
  queueIndex (sched (_checkSilence (mkStats (Some 12000%Z) None) Session.active))
  = queueIndex (sched Session.active).
Proof.
  apply (recent_activity_keeps_the_item (mkStats (Some 12000%Z) None)
           Session.active); [done | reflexivity].
Defined.

Lemma skipping_through_the_queue_witness :
  (1 < 2 →
   isRunning (sched (Nat.iter 1 skipPrompt (startQueue (Some 2) Scenario.ready)))
   = true)
  ∧ (2 ≤ 2 →
     notes (Nat.iter 2 skipPrompt (startQueue (Some 2) Scenario.ready))
     = notes Scenario.ready ++ [CompletionInfo 2]).
Proof.
  split; intros Hk.
  - apply (skipping_through_the_queue (Some 2) Scenario.ready
             ["A"%string; "B"%string] 1); [reflexivity | done | exact Hk].
  - apply (skipping_through_the_queue (Some 2) Scenario.ready
             ["A"%string; "B"%string] 2); [reflexivity | done | exact Hk].
Defined.

Lemma idle_queue_ignores_timers_and_commands_witness :
  pauseQueue Session.start = Session.start
  ∧ resumeQueue Session.start = Session.start
  ∧ skipPrompt Session.start = Session.start.
Proof.
  apply (idle_queue_ignores_timers_and_commands Session.start);
    [left|]; reflexivity.
Defined.

Lemma sanitizePath_keeps_permitted_paths_witness :
  Relauncher.isSpace 10 = true ∧ Relauncher.allowed 10 = true.
Proof.
  split; [reflexivity|].
  apply (sanitizePath_keeps_permitted_paths [] []); reflexivity.
Defined.

Lemma hasFlag_iff_some_argument_contains_the_flag_witness :
  Relauncher.hasFlag Scenario.argv 9004 = true.
Proof.
  apply (hasFlag_iff_some_argument_contains_the_flag Scenario.argv 9004).
  exists (Relauncher.cdpFlag 9004).
  split; [|reflexivity].
  apply list_elem_of_further, list_elem_of_here.
Defined.

Lemma relaunch_arguments_are_sanitized_witness :
  Relauncher.atOnce
    (Relauncher._relaunch false 9004 (Relauncher.units "/usr/bin/code")
       [Relauncher.units "/home/me/a b"] [])
  = [].
Proof.
  apply (relaunch_arguments_are_sanitized false 9004
           (Relauncher.units "/usr/bin/code")
           [Relauncher.units "/home/me/a b"] []).
  reflexivity.
Defined.

Lemma relaunch_is_proposed_at_most_once_witness :
  Extension.reachableExt Scenario.portClosed
  ∧ length (Extension.relaunches Scenario.portClosed) ≤ 1.
Proof.
  split; [exact Scenario_portClosed_reachable|].
  apply (relaunch_is_proposed_at_most_once Scenario.portClosed
           Scenario_portClosed_reachable).
Defined.

Lemma one_poll_timer_and_bracketed_handler_calls_witness :
  Extension.reachableExt Scenario.polling
  ∧ size (Extension.polls Scenario.polling) ≤ 1.
Proof.
  split; [exact Scenario_polling_reachable|].
  apply (one_poll_timer_and_bracketed_handler_calls Scenario.polling
           Scenario_polling_reachable).
Defined.

Lemma status_bar_shows_enabled_witness :
  Extension.statusOn Scenario.polling = Extension.enabled Scenario.polling.
Proof.
  apply (status_bar_shows_enabled Scenario.polling Scenario_polling_reachable).
  intros [H|H]; vm_compute in H; by apply elem_of_nil in H.
Defined.

Lemma entry_point_never_pauses_or_repeats_witness :
  Extension.reachableExt Scenario.polling
  ∧ isPaused (sched (Extension.scheduler Scenario.polling)) = false.
Proof.
  split; [exact Scenario_polling_reachable|].
  apply (entry_point_never_pauses_or_repeats Scenario.polling
           Scenario_polling_reachable).
Defined.

Lemma deactivate_stops_everything_witness :
  Extension.reachableExt Scenario.polling
  ∧ Extension.polls (Extension.deactivate Scenario.polling) = ∅.
Proof.
  split; [exact Scenario_polling_reachable|].
  apply (deactivate_stops_everything Scenario.polling
           Scenario_polling_reachable).
Defined.

Lemma running_queue_has_a_current_item_witness :
  st_queueIndex (getStatus Scenario.retrying)
  ≤ st_queueLength (getStatus Scenario.retrying).
Proof.
  apply (running_queue_has_a_current_item Session.settings Session.store 1000
           (Session.begin ["A"%string; "B"%string] ++ Session.failAndRetry)
           Scenario.retrying).
  - vm_compute. split_and!; try done;
      intros (i & p & Heq & Hin & Hlast & Hrun);
      first [discriminate Heq | discriminate Hrun].
  - vm_compute; reflexivity.
Defined.
